(** * RagByKilo: URL ingestion pipeline (src/src/url_processor.py,
    src/src/chroma_manager.py)

    A Python [str] is a sequence of Unicode code points; it is modelled as
    [list N].  [len] is [length].  The text splitter is langchain's
    [RecursiveCharacterTextSplitter] as configured by [URLChunker]
    (keep_separator = True, strip_whitespace = True, length_function = len,
    literal separators), the store is a ChromaDB client. *)

From Stdlib Require Import String Ascii ZArith DecimalNat.
From stdpp Require Import base gmap list.

Abbreviation str := (list N).

(** Source-text literals. *)
Definition s2l (s : string) : str := map N_of_ascii (list_ascii_of_string s).

(** Python [str.isspace] for one code point. *)
Definition is_space (c : N) : bool :=
  ((9 <=? c) && (c <=? 13))%N || ((28 <=? c) && (c <=? 32))%N
  || (c =? 133)%N || (c =? 160)%N || (c =? 5760)%N
  || ((8192 <=? c) && (c <=? 8202))%N || (c =? 8232)%N || (c =? 8233)%N
  || (c =? 8239)%N || (c =? 8287)%N || (c =? 12288)%N.

Fixpoint lstrip (s : str) : str :=
  match s with
  | [] => []
  | c :: r => if is_space c then lstrip r else s
  end.

(** [s.strip()] *)
Definition strip (s : str) : str := rev (lstrip (rev (lstrip s))).

Fixpoint is_prefix (p s : str) : bool :=
  match p, s with
  | [], _ => true
  | _ :: _, [] => false
  | a :: p', b :: s' => (a =? b)%N && is_prefix p' s'
  end.

(** [re.search(re.escape(sep), text)] *)
Fixpoint contains (sep s : str) : bool :=
  is_prefix sep s ||
  match s with
  | [] => false
  | _ :: s' => contains sep s'
  end.

(** Python error values carry their [str(e)] message. *)
Inductive Res (A : Type) : Type :=
| Ok (a : A)
| Err (msg : str).
Arguments Ok {A} a.
Arguments Err {A} msg.

Definition rbind {A B} (r : Res A) (f : A -> Res B) : Res B :=
  match r with Ok a => f a | Err e => Err e end.

Notation "x <-? c ; k" := (rbind c (fun x => k))
  (at level 60, c at next level, right associativity).

Definition index_error : str := s2l "list index out of range".

(** ** The text splitter (langchain [RecursiveCharacterTextSplitter]) *)

Record TextSplitter := mkSplitter {
  chunk_size : Z;
  chunk_overlap : Z;
  separators : list str
}.

(** [re.split(f"({sep})", text)] with the separator kept at the start of
    the following piece, for a non-empty literal [sep]: the pieces are
    [p0, sep+p1, ..., sep+pk].  [skip] counts the separator characters
    still to be copied into the current piece (which is kept reversed). *)
Fixpoint split_keep (sep : str) (text : str) (skip : nat) (cur : str) : list str :=
  match text with
  | [] => [rev cur]
  | c :: rest =>
      match skip with
      | S k => split_keep sep rest k (c :: cur)
      | O =>
          if is_prefix sep text then rev cur :: split_keep sep rest (pred (length sep)) [c]
          else split_keep sep rest O (c :: cur)
      end
  end.

(** [_split_text_with_regex(text, sep, keep_separator=True)] *)
Definition split_with_sep (sep text : str) : list str :=
  match sep with
  | [] => map (fun c => [c]) text
  | _ => List.filter (fun s => negb (bool_decide (s = []))) (split_keep sep text O [])
  end.

(** [separator.join(docs)] *)
Definition join (sep : str) (docs : list str) : str :=
  match docs with
  | [] => []
  | d :: ds => d ++ concat (map (fun x => sep ++ x) ds)
  end.

(** [_join_docs]: join, strip, [None] for an empty result. *)
Definition join_docs (sep : str) (docs : list str) : option str :=
  match strip (join sep docs) with
  | [] => None
  | t => Some t
  end.

Definition opt_list {A} (o : option A) : list A :=
  match o with Some a => [a] | None => [] end.

Definition zlen (s : str) : Z := Z.of_nat (length s).

Section Merge.
Variable ts : TextSplitter.
Variable sep : str.

Definition sep_len : Z := zlen sep.

(** The [while] loop of [_merge_splits]: drop documents from the front of
    [current_doc]; [current_doc[0]] on an empty list raises [IndexError]. *)
Fixpoint pop_loop (len_d : Z) (cur : list str) (total : Z) : Res (list str * Z) :=
  match cur with
  | [] =>
      if (total >? chunk_overlap ts)%Z || ((total + len_d >? chunk_size ts)%Z && (total >? 0)%Z)
      then Err index_error else Ok ([], total)
  | d0 :: rest =>
      if (total >? chunk_overlap ts)%Z
         || ((total + len_d + sep_len >? chunk_size ts)%Z && (total >? 0)%Z)
      then pop_loop len_d rest
             (total - (zlen d0 + (match rest with [] => 0 | _ => sep_len end)))%Z
      else Ok (cur, total)
  end.

(** One iteration of the [for d in splits] loop of [_merge_splits], on the
    state [(docs, current_doc, total)]. *)
Definition merge_step (st : list str * list str * Z) (d : str)
    : Res (list str * list str * Z) :=
  let '(docs, cur, total) := st in
  let len_d := zlen d in
  let adj := match cur with [] => 0%Z | _ => sep_len end in
  if (total + len_d + adj >? chunk_size ts)%Z then
    match cur with
    | [] => Ok (docs, [d], (total + len_d)%Z)
    | _ =>
        let docs' := docs ++ opt_list (join_docs sep cur) in
        match pop_loop len_d cur total with
        | Err e => Err e
        | Ok (cur', total') =>
            Ok (docs', cur' ++ [d],
                (total' + len_d + match cur' with [] => 0 | _ => sep_len end)%Z)
        end
    end
  else Ok (docs, cur ++ [d], (total + len_d + adj)%Z).

Fixpoint merge_loop (st : list str * list str * Z) (splits : list str)
    : Res (list str * list str * Z) :=
  match splits with
  | [] => Ok st
  | d :: ds => st' <-? merge_step st d ; merge_loop st' ds
  end.

(** [_merge_splits(splits, separator)] *)
Definition merge_splits (splits : list str) : Res (list str) :=
  match merge_loop ([], [], 0%Z) splits with
  | Err e => Err e
  | Ok (docs, cur, _) => Ok (docs ++ opt_list (join_docs sep cur))
  end.

End Merge.

Section SplitText.
Variable ts : TextSplitter.

(** [if _good_splits: final_chunks.extend(self._merge_splits(_good_splits, _separator))];
    the merge separator is [""] because [keep_separator] is set. *)
Definition flush_good (final good : list str) : Res (list str) :=
  match good with
  | [] => Ok final
  | _ => m <-? merge_splits ts [] good ; Ok (final ++ m)
  end.

(** The [for s in splits] loop of [_split_text].  [recurse] is
    [Some (fun s => self._split_text(s, new_separators))], or [None]
    when [new_separators] is empty.  [good] is [_good_splits]. *)
Fixpoint split_loop (recurse : option (str -> Res (list str)))
    (splits : list str) (final good : list str) : Res (list str) :=
  match splits with
  | [] => flush_good final good
  | s :: ss =>
      if (zlen s <? chunk_size ts)%Z then split_loop recurse ss final (good ++ [s])
      else
        final1 <-? flush_good final good ;
        match recurse with
        | None => split_loop recurse ss (final1 ++ [s]) []
        | Some f => sub <-? f s ; split_loop recurse ss (final1 ++ sub) []
        end
  end.

Definition split_level (sep : str) (recurse : option (str -> Res (list str)))
    (text : str) : Res (list str) :=
  split_loop recurse (split_with_sep sep text) [] [].

(** [_split_text(text, separators)].  The scan for the first separator
    that is empty or occurs in [text] is the recursion on [seps]; [last] is
    [separators[-1]], used when the scan finds nothing. *)
Fixpoint split_text_rec (seps : list str) (last : str) (text : str) {struct seps}
    : Res (list str) :=
  match seps with
  | [] => split_level last None text
  | s :: rest =>
      match s with
      | [] => split_level [] None text
      | _ =>
          if contains s text then
            split_level s
              (match rest with
               | [] => None
               | _ => Some (split_text_rec rest last)
               end) text
          else split_text_rec rest last text
      end
  end.

(** [split_text(text)]; [separators[-1]] on an empty list raises. *)
Definition split_text (text : str) : Res (list str) :=
  match separators ts with
  | [] => Err index_error
  | seps => split_text_rec seps (List.last seps []) text
  end.

End SplitText.

(** The separator list of [URLChunker] (url_processor.py, 248-258, 290). *)
Definition url_separators : list str :=
  [[10; 10]; [10]; s2l ". "; s2l "! "; s2l "? "; s2l "; "; s2l ", "; s2l " "; []]%N.

(** langchain's default separators, used by [ChromaDBManager.add_texts]. *)
Definition default_separators : list str := [[10; 10]; [10]; s2l " "; []]%N.

(** ** [WebContentExtractor.clean_text] (url_processor.py, 195-219) *)

(** [re.sub(pattern, repl, text)] for a pattern matching the runs of at
    least [min] characters of a class [p] ([\s+], [[.]{3,}], [[!]{2,}], ...):
    characters outside the class are copied, each maximal run of the class
    is replaced by [repl] when it has at least [min] characters (the greedy
    match takes the whole run) and is copied otherwise.  [run] is the run
    read so far, reversed. *)
Definition flush_run (min : nat) (repl run : str) : str :=
  if min <=? length run then repl else rev run.

Fixpoint sub_runs (p : N -> bool) (min : nat) (repl : str) (run : str) (s : str) : str :=
  match s with
  | [] => flush_run min repl run
  | c :: r =>
      if p c then sub_runs p min repl (c :: run) r
      else flush_run min repl run ++ c :: sub_runs p min repl [] r
  end.

Definition re_sub_runs (p : N -> bool) (min : nat) (repl s : str) : str :=
  sub_runs p min repl [] s.

(** [[\r\n\t]] *)
Definition is_cr_lf_tab (c : N) : bool := ((c =? 13) || (c =? 10) || (c =? 9))%N.

(** [WebContentExtractor.clean_text(text)] *)
Definition clean_text (text : str) : str :=
  match text with
  | [] => []
  | _ =>
      let t1 := re_sub_runs is_space 1 [32%N] text in
      let t2 := re_sub_runs (N.eqb 46) 3 [46; 46; 46]%N t1 in
      let t3 := re_sub_runs (N.eqb 33) 2 [33%N] t2 in
      let t4 := re_sub_runs (N.eqb 63) 2 [63%N] t3 in
      let t5 := re_sub_runs is_cr_lf_tab 1 [32%N] t4 in
      strip t5
  end.

(** ** Chunk metadata and ids (url_processor.py, [create_chunks]) *)

(** Metadata values as the pipeline produces them. *)
Inductive Value : Type :=
| VStr (s : str)
| VInt (z : Z).

Abbreviation Metadata := (gmap str Value).

Fixpoint uint_chars (d : Decimal.uint) : str :=
  match d with
  | Decimal.Nil => []
  | Decimal.D0 d => 48 :: uint_chars d
  | Decimal.D1 d => 49 :: uint_chars d
  | Decimal.D2 d => 50 :: uint_chars d
  | Decimal.D3 d => 51 :: uint_chars d
  | Decimal.D4 d => 52 :: uint_chars d
  | Decimal.D5 d => 53 :: uint_chars d
  | Decimal.D6 d => 54 :: uint_chars d
  | Decimal.D7 d => 55 :: uint_chars d
  | Decimal.D8 d => 56 :: uint_chars d
  | Decimal.D9 d => 57 :: uint_chars d
  end%N.

(** [str(n)] for a non-negative [int]. *)
Definition str_of_nat (n : nat) : str := uint_chars (Nat.to_uint n).

Definition str_of_Z (z : Z) : str :=
  match z with
  | Zneg p => 45%N :: str_of_nat (Pos.to_nat p)
  | _ => str_of_nat (Z.to_nat z)
  end.

(** [f"{v}"] *)
Definition py_format (v : Value) : str :=
  match v with
  | VStr s => s
  | VInt z => str_of_Z z
  end.

(** The messages of the [ValueError]s of [TextSplitter.__init__]. *)
Definition chunk_size_msg (cs : Z) : str :=
  s2l "chunk_size must be > 0, got " ++ str_of_Z cs.

Definition overlap_neg_msg (co : Z) : str :=
  s2l "chunk_overlap must be >= 0, got " ++ str_of_Z co.

Definition overlap_msg (cs co : Z) : str :=
  s2l "Got a larger chunk overlap (" ++ str_of_Z co ++ s2l ") than chunk size ("
  ++ str_of_Z cs ++ s2l "), should be smaller.".

(** [TextSplitter.__init__]: the parameter checks of the constructor. *)
Definition new_splitter (cs co : Z) (seps : list str) : Res TextSplitter :=
  if (cs <=? 0)%Z then Err (chunk_size_msg cs)
  else if (co <? 0)%Z then Err (overlap_neg_msg co)
  else if (co >? cs)%Z then Err (overlap_msg cs co)
  else Ok (mkSplitter cs co seps).

Definition underscore : N := 95%N.

(** The string hashed for a chunk id: [f"{metadata['url']}_{i}_{chunk}"]. *)
Definition id_input (url : Value) (i : nat) (chunk : str) : str :=
  py_format url ++ [underscore] ++ str_of_nat i ++ [underscore] ++ chunk.

(** The external collaborators of the pipeline. *)
Record World := mkWorld {
  (** [hashlib.sha256(s.encode('utf-8')).hexdigest()] *)
  sha256_hexdigest : str -> str;
  (** [WebContentExtractor.fetch_content]: the HTML, or the message of the
      exception raised by the request *)
  fetch_content : str -> Res str;
  (** [WebContentExtractor.extract_text] (BeautifulSoup text followed by
      [clean_text]), or the message of the exception it re-raises *)
  extract_text : str -> Res str;
  (** the title, description, keywords, author and language BeautifulSoup
      finds in the HTML; [None] when parsing raises *)
  soup_fields : str -> option (str * str * str * str * str);
  (** ChromaDB's collection-name validation *)
  collection_name_ok : str -> bool
}.

Definition k_url := s2l "url".
Definition k_processed_date := s2l "processed_date".
Definition k_title := s2l "title".
Definition k_description := s2l "description".
Definition k_keywords := s2l "keywords".
Definition k_author := s2l "author".
Definition k_language := s2l "language".
Definition k_chunk_index := s2l "chunk_index".
Definition k_chunk_size := s2l "chunk_size".
Definition k_source := s2l "source".

(** [WebContentExtractor.extract_metadata(html, url)]; [now] is
    [datetime.now().isoformat()].  On a parsing error the base metadata is
    returned. *)
Definition extract_metadata (w : World) (now html url : str) : Metadata :=
  let base := <[k_processed_date := VStr now]> (<[k_url := VStr url]> ∅) in
  match soup_fields w html with
  | Some (t, d, k, a, l) =>
      <[k_language := VStr l]> (<[k_author := VStr a]> (<[k_keywords := VStr k]>
        (<[k_description := VStr d]> (<[k_title := VStr t]> base))))
  | None =>
      <[k_language := VStr []]> (<[k_author := VStr []]> (<[k_keywords := VStr []]>
        (<[k_description := VStr []]> (<[k_title := VStr []]> base))))
  end.

(** [if source_name:] *)
Definition truthy_name (sn : option str) : option str :=
  match sn with
  | Some ((_ :: _) as s) => Some s
  | _ => None
  end.

(** The metadata of chunk [i]: [metadata.copy()] with [chunk_index],
    [chunk_size] and, for a truthy [source_name], [source]. *)
Definition chunk_metadata (md : Metadata) (i : nat) (chunk : str) (sn : option str)
    : Metadata :=
  let m := <[k_chunk_size := VInt (zlen chunk)]> (<[k_chunk_index := VInt (Z.of_nat i)]> md) in
  match truthy_name sn with
  | Some s => <[k_source := VStr s]> m
  | None => m
  end.

Record ChunksData := mkChunks {
  cd_chunks : list str;
  cd_ids : list str;
  cd_metadatas : list Metadata
}.

Definition key_error (k : str) : str := [39%N] ++ k ++ [39%N].

(** The [for i, chunk in enumerate(text_chunks)] loop of [create_chunks],
    from index [i]; [metadata['url']] raises [KeyError] when absent. *)
Fixpoint assemble (w : World) (md : Metadata) (sn : option str) (i : nat)
    (chunks : list str) : Res ChunksData :=
  match chunks with
  | [] => Ok (mkChunks [] [] [])
  | c :: cs =>
      match md !! k_url with
      | None => Err (key_error k_url)
      | Some url =>
          rest <-? assemble w md sn (S i) cs ;
          Ok (mkChunks (c :: cd_chunks rest)
                       (sha256_hexdigest w (id_input url i c) :: cd_ids rest)
                       (chunk_metadata md i c sn :: cd_metadatas rest))
      end
  end.

(** [URLChunker.create_chunks(text, metadata, source_name)] with the
    splitter currently stored in [self.text_splitter]. *)
Definition create_chunks (w : World) (sp : TextSplitter) (text : str) (md : Metadata)
    (sn : option str) : Res ChunksData :=
  chunks <-? split_text sp text ; assemble w md sn 0 chunks.

(** ** The ChromaDB store *)

(** A collection maps ids to (document, metadata). *)
Abbreviation Collection := (gmap str (str * Metadata)).
Abbreviation Client := (gmap str Collection).

(** [client.get_or_create_collection(name)] *)
Definition get_or_create_collection (w : World) (name : str) (cl : Client) : Res Client :=
  if collection_name_ok w name then
    match cl !! name with
    | Some _ => Ok cl
    | None => Ok (<[name := ∅]> cl)
    end
  else Err (s2l "Expected collection name that is valid").

Definition upsert_records (ids docs : list str) (metas : list Metadata) (col : Collection)
    : Collection :=
  fold_left (fun c '(i, d, m) => <[i := (d, m)]> c) (zip (zip ids docs) metas) col.

Definition empty_ids_msg : str := s2l "Expected IDs to be a non-empty list, got 0 IDs".

(** The message of ChromaDB's [DuplicateIDError]; ChromaDB goes on to list
    the duplicated ids, in the order of a Python set. *)
Definition duplicate_ids_msg : str := s2l "Expected IDs to be unique, found duplicates of: ".

Definition empty_metadata_msg : str :=
  s2l "Expected metadata to be a non-empty dict, got 0 metadata attributes".

(** [collection.upsert(ids=..., documents=..., metadatas=...)]: ChromaDB
    validates the call before writing anything: the id list must not be
    empty, no id may occur twice ([DuplicateIDError]) and no metadata may be
    an empty dict; it then writes every record, replacing records with the
    same id. *)
Definition upsert (name : str) (ids docs : list str) (metas : list Metadata) (cl : Client)
    : Res Client :=
  match ids with
  | [] => Err empty_ids_msg
  | _ =>
      if bool_decide (NoDup ids) then
        if existsb (fun m : Metadata => Nat.eqb (size m) 0) metas then Err empty_metadata_msg
        else Ok (<[name := upsert_records ids docs metas (default ∅ (cl !! name))]> cl)
      else Err duplicate_ids_msg
  end.

(** [collection.count()] of [get_collection(name)], which raises when the
    collection does not exist. *)
Definition count_items (name : str) (cl : Client) : Res nat :=
  match cl !! name with
  | Some col => Ok (size col)
  | None => Err (s2l "Collection does not exist.")
  end.

(** ** Deleting (chroma_manager.py, [delete_collection], [delete_by_ids],
    [delete_by_metadata]) *)

#[global] Instance Value_eq_dec : EqDecision Value.
Proof. solve_decision. Defined.

(** [client.get_collection(name)] raises for a missing collection. *)
Definition not_found_msg : str := s2l "Collection does not exist.".

(** [ChromaDBManager.delete_collection(name)]: [client.delete_collection]
    raises for a missing collection and drops it otherwise. *)
Definition delete_collection (name : str) (cl : Client) : Res Client :=
  match cl !! name with
  | Some _ => Ok (delete name cl)
  | None => Err not_found_msg
  end.

Definition no_delete_msg : str :=
  s2l "You must provide either ids, where, or where_document to delete.".

(** [collection.delete(ids=ids)]: ids that are not stored are skipped. *)
Definition delete_ids (ids : list str) (col : Collection) : Collection :=
  fold_left (fun c i => delete i c) ids col.

(** [ChromaDBManager.delete_by_ids(collection_name, ids)]: [get_collection]
    raises for a missing collection; ChromaDB refuses an empty id list (no
    deletion criterion) and an id list with duplicates, as for [upsert]. *)
Definition delete_by_ids (coll : str) (ids : list str) (cl : Client) : Res Client :=
  match cl !! coll with
  | None => Err not_found_msg
  | Some col =>
      match ids with
      | [] => Err no_delete_msg
      | _ =>
          if bool_decide (NoDup ids) then Ok (<[coll := delete_ids ids col]> cl)
          else Err duplicate_ids_msg
      end
  end.

(** ChromaDB's [validate_where] and matching for a filter whose values are
    strings or integers: an empty filter is no criterion, a filter must
    have exactly one key, [$and] and [$or] need a list, and [{k: v}]
    matches the records whose metadata has [k] equal to [v]. *)
Definition where_pred (wf : gmap str Value) : Res (Metadata -> bool) :=
  match map_to_list wf with
  | [] => Err no_delete_msg
  | [(k, v)] =>
      if bool_decide (k = s2l "$and") || bool_decide (k = s2l "$or")
      then Err (s2l "Expected where value for $and or $or to be a list of where expressions")
      else Ok (fun m => bool_decide (m !! k = Some v))
  | _ => Err (s2l "Expected where to have exactly one operator")
  end.

(** [ChromaDBManager.delete_by_metadata(collection_name, where_filter)] *)
Definition delete_by_metadata (coll : str) (wf : gmap str Value) (cl : Client) : Res Client :=
  match cl !! coll with
  | None => Err not_found_msg
  | Some col =>
      match where_pred wf with
      | Err e => Err e
      | Ok pr => Ok (<[coll := filter (fun kv : str * (str * Metadata) => pr kv.2.2 = false) col]> cl)
      end
  end.

(** ** [URLChunker] *)

Record URLChunker := mkURLChunker {
  text_splitter : TextSplitter;
  client : Client   (** the client of [self.chroma_manager] *)
}.

Definition set_splitter (sp : TextSplitter) (st : URLChunker) : URLChunker :=
  mkURLChunker sp (client st).
Definition set_client (cl : Client) (st : URLChunker) : URLChunker :=
  mkURLChunker (text_splitter st) cl.

(** [URLChunker.__init__]: chunk_size 1000, overlap 200. *)
Definition new_url_chunker (cl : Client) : URLChunker :=
  mkURLChunker (mkSplitter 1000 200 url_separators) cl.


(** Python code that can raise and mutates the [URLChunker]: the state is
    kept when an exception is raised. *)
Definition M (A : Type) : Type := URLChunker -> Res A * URLChunker.

Definition mret {A} (a : A) : M A := fun st => (Ok a, st).
Definition mbind {A B} (c : M A) (k : A -> M B) : M B :=
  fun st => match c st with
            | (Ok a, st') => k a st'
            | (Err e, st') => (Err e, st')
            end.
Definition lift {A} (r : Res A) : M A := fun st => (r, st).
Definition get_splitter : M TextSplitter := fun st => (Ok (text_splitter st), st).

Notation "x <- c ;; k" := (mbind c (fun x => k))
  (at level 100, c at next level, right associativity).
Notation "c ;;; k" := (mbind c (fun _ => k)) (at level 100, right associativity).

(** [if chunk_size != 1000 or chunk_overlap != 200: self.text_splitter = ...] *)
Definition configure (cs co : Z) : M unit := fun st =>
  if negb (cs =? 1000)%Z || negb (co =? 200)%Z then
    match new_splitter cs co url_separators with
    | Ok sp => (Ok tt, set_splitter sp st)
    | Err e => (Err e, st)
    end
  else (Ok tt, st).

(** [URLChunker.save_to_chroma(chunks_data, collection_name)] *)
Definition save_to_chroma (w : World) (data : ChunksData) (name : str) : M unit := fun st =>
  match get_or_create_collection w name (client st) with
  | Err e => (Err e, st)
  | Ok cl1 =>
      match upsert name (cd_ids data) (cd_chunks data) (cd_metadatas data) cl1 with
      | Err e => (Err e, set_client cl1 st)
      | Ok cl2 => (Ok tt, set_client cl2 st)
      end
  end.

(** The dictionary returned by [process_url] (its [processing_time], a
    wall-clock reading, is left out). *)
Record IngestResult := mkResult {
  r_success : bool;
  r_error : option str;
  r_url : str;
  r_chunks_created : nat;
  r_total_characters : option nat;
  r_metadata : option Metadata
}.

Definition failure_result (url e : str) : IngestResult :=
  mkResult false (Some e) url 0 None None.

(** 'Пустой текстовый контент' *)
Definition empty_content_msg : str :=
  [1055; 1091; 1089; 1090; 1086; 1081; 32; 1090; 1077; 1082; 1089; 1090; 1086;
   1074; 1099; 1081; 32; 1082; 1086; 1085; 1090; 1077; 1085; 1090]%N.

(** The [try] block of [process_url]. *)
Definition process_url_body (w : World) (now url coll : str) (cs co : Z) (sn : option str)
    : M IngestResult :=
  configure cs co ;;;
  html <- lift (fetch_content w url) ;;
  let metadata := extract_metadata w now html url in
  text <- lift (extract_text w html) ;;
  match strip text with
  | [] => mret (failure_result url empty_content_msg)
  | _ =>
      sp <- get_splitter ;;
      data <- lift (create_chunks w sp text metadata sn) ;;
      save_to_chroma w data coll ;;;
      mret (mkResult true None url (length (cd_chunks data)) (Some (length text)) (Some metadata))
  end.

(** [URLChunker.process_url]: every [Exception] is turned into a failure
    result. *)
Definition process_url (w : World) (now url coll : str) (cs co : Z) (sn : option str)
    (st : URLChunker) : IngestResult * URLChunker :=
  match process_url_body w now url coll cs co sn st with
  | (Ok r, st') => (r, st')
  | (Err e, st') => (failure_result url e, st')
  end.

(** [URLChunker.process_multiple_urls], from the [k]-th url on; [clock k] is
    the time of the [k]-th call.  [process_url] does not raise, so the
    [except] branch of the loop is never taken. *)
Fixpoint process_urls_from (w : World) (clock : nat -> str) (k : nat) (urls : list str)
    (coll : str) (cs co : Z) (sn : option str) (st : URLChunker)
    : list IngestResult * URLChunker :=
  match urls with
  | [] => ([], st)
  | u :: us =>
      let '(r, st1) := process_url w (clock k) u coll cs co sn st in
      let '(rs, st2) := process_urls_from w clock (S k) us coll cs co sn st1 in
      (r :: rs, st2)
  end.

Definition process_multiple_urls (w : World) (clock : nat -> str) (urls : list str)
    (coll : str) (cs co : Z) (sn : option str) (st : URLChunker)
    : list IngestResult * URLChunker :=
  process_urls_from w clock 0 urls coll cs co sn st.

(** ** [ChromaDBManager.add_texts] (content-addressed ids) *)

(** [metadatas[i].copy() if metadatas and i < len(metadatas) else {}] *)
Definition base_metadata (metadatas : option (list Metadata)) (i : nat) : Metadata :=
  match metadatas with
  | Some ((_ :: _) as ms) => default ∅ (ms !! i)
  | _ => ∅
  end.

Definition with_source (sn : option str) (m : Metadata) : Metadata :=
  match truthy_name sn with
  | Some s => <[k_source := VStr s]> m
  | None => m
  end.

(** The [for i, text in enumerate(texts)] loop of [add_texts]: the
    chunks, their ids [sha256(chunk)] and their metadata. *)
Fixpoint add_texts_records (w : World) (sp : TextSplitter)
    (metadatas : option (list Metadata)) (sn : option str) (i : nat) (texts : list str)
    : Res (list str * list str * list Metadata) :=
  match texts with
  | [] => Ok ([], [], [])
  | t :: ts =>
      split_chunks <-? split_text sp t ;
      rest <-? add_texts_records w sp metadatas sn (S i) ts ;
      let '(chunks, ids, metas) := rest in
      Ok (split_chunks ++ chunks,
          map (sha256_hexdigest w) split_chunks ++ ids,
          map (fun _ => with_source sn (base_metadata metadatas i)) split_chunks ++ metas)
  end.

(** [ChromaDBManager.add_texts(collection_name, texts, metadatas,
    source_name, chunk_size, chunk_overlap)] on the client state. *)
Definition add_texts (w : World) (coll : str) (texts : list str)
    (metadatas : option (list Metadata)) (sn : option str) (cs co : Z) (cl : Client)
    : Res unit * Client :=
  match get_or_create_collection w coll cl with
  | Err e => (Err e, cl)
  | Ok cl1 =>
      match new_splitter cs co default_separators with
      | Err e => (Err e, cl1)
      | Ok sp =>
          match add_texts_records w sp metadatas sn 0 texts with
          | Err e => (Err e, cl1)
          | Ok (chunks, ids, metas) =>
              match chunks with
              | [] => (Ok tt, cl1)
              | _ =>
                  match upsert coll ids chunks metas cl1 with
                  | Err e => (Err e, cl1)
                  | Ok cl2 => (Ok tt, cl2)
                  end
              end
          end
      end
  end.

Definition res_map {A B} (f : A -> B) (r : Res A) : Res B :=
  match r with Ok a => Ok (f a) | Err e => Err e end.

(** What of [create_chunks]'s output reaches the ids and the count. *)
Definition cd_shape (d : ChunksData) : list str * list str * nat :=
  (cd_chunks d, cd_ids d, length (cd_metadatas d)).

(** ** Demonstration worlds *)

(** A site that serves [page] at every url, whose text is the page itself,
    with no title or meta tags, every collection name valid, and the
    identity standing in for the hash. *)
Definition demo_world (page : str) : World :=
  mkWorld (fun s => s) (fun _ => Ok page) (fun h => Ok h) (fun _ => None) (fun _ => true).

(** A site that serves [page u] at the url [u], otherwise as [demo_world]. *)
Definition site_world (page : str -> str) : World :=
  mkWorld (fun s => s) (fun u => Ok (page u)) (fun h => Ok h) (fun _ => None) (fun _ => true).

(** A site whose requests all fail. *)
Definition offline_world : World :=
  mkWorld (fun s => s) (fun _ => Err (s2l "Connection refused")) (fun h => Ok h)
    (fun _ => None) (fun _ => true).

Definition demo_coll : str := s2l "docs".
Definition demo_url : str := s2l "https://example.org/a".
Definition demo_now : str := s2l "2026-10-14T00:00:00".

(* ================================================================== *)
(** * Properties *)

Ltac zb := repeat rewrite ?Z.gtb_ltb, ?Z.ltb_lt, ?Z.ltb_ge in *.

Example split_ex1 :
  split_text (mkSplitter 5 0 url_separators) (s2l "abcdefgh")
  = Ok [s2l "abcde"; s2l "fgh"].
Proof. vm_compute. reflexivity. Qed.

Example split_ex2 :
  split_text (mkSplitter 5 2 url_separators) (s2l "A. B. C. D.")
  = Ok [s2l "A. B"; s2l ". C"; s2l ". D."].
Proof. vm_compute. reflexivity. Qed.

(** ** Lengths of [strip] and [join] *)

Lemma lstrip_length (s : str) : length (lstrip s) <= length s.
Proof. induction s as [|c r IH]; simpl; [lia|]. destruct (is_space c); simpl; lia. Qed.

Lemma strip_length (s : str) : length (strip s) <= length s.
Proof.
  unfold strip. rewrite length_rev.
  pose proof (lstrip_length (rev (lstrip s))). rewrite length_rev in H.
  pose proof (lstrip_length s). lia.
Qed.

Lemma join_cons_cons (sep x y : str) (r : list str) :
  join sep (x :: y :: r) = x ++ sep ++ join sep (y :: r).
Proof. simpl. rewrite <- !app_assoc. reflexivity. Qed.

Lemma zlen_app (a b : str) : zlen (a ++ b) = (zlen a + zlen b)%Z.
Proof. unfold zlen. rewrite length_app. lia. Qed.

Lemma zlen_nonneg (a : str) : (0 <= zlen a)%Z.
Proof. unfold zlen. lia. Qed.

Lemma zlen_pos (a : str) : a <> [] -> (0 < zlen a)%Z.
Proof. destruct a; [congruence|]. unfold zlen. simpl. lia. Qed.

Lemma join_cons_zlen (sep x : str) (r : list str) :
  zlen (join sep (x :: r))
  = (zlen x + match r with [] => 0 | _ => sep_len sep + zlen (join sep r) end)%Z.
Proof.
  destruct r as [|y r].
  - unfold zlen; simpl. rewrite app_nil_r. lia.
  - rewrite join_cons_cons, !zlen_app. unfold sep_len. lia.
Qed.

Lemma join_snoc_zlen (sep : str) (cur : list str) (d : str) :
  zlen (join sep (cur ++ [d]))
  = (zlen (join sep cur) + match cur with [] => 0 | _ => sep_len sep end + zlen d)%Z.
Proof.
  destruct cur as [|x r]; unfold sep_len, zlen; simpl;
    rewrite ?map_app, ?concat_app; simpl; rewrite ?app_nil_r, ?length_app; simpl; lia.
Qed.

Lemma join_zlen_head (sep x : str) (r : list str) :
  (zlen x <= zlen (join sep (x :: r)))%Z.
Proof.
  rewrite join_cons_zlen. destruct r as [|y r]; [lia|].
  pose proof (zlen_nonneg sep). pose proof (zlen_nonneg (join sep (y :: r))).
  unfold sep_len. lia.
Qed.

Lemma join_docs_length (sep : str) (cur : list str) (t : str) :
  join_docs sep cur = Some t -> (zlen t <= zlen (join sep cur))%Z.
Proof.
  unfold join_docs. destruct (strip (join sep cur)) eqn:E; [discriminate|].
  intros H; injection H as <-. rewrite <- E. unfold zlen.
  pose proof (strip_length (join sep cur)). lia.
Qed.

(** ** [_merge_splits] keeps every document within [chunk_size] *)

Section MergeBound.
Variable ts : TextSplitter.
Variable sep : str.

Definition nonempty (s : str) : Prop := s <> [].

Lemma pop_loop_ok (len_d : Z) : forall cur total cur' total',
  total = zlen (join sep cur) -> Forall nonempty cur ->
  pop_loop ts sep len_d cur total = Ok (cur', total') ->
  total' = zlen (join sep cur') /\ Forall nonempty cur' /\
  ((total' + len_d + match cur' with [] => 0 | _ => sep_len sep end
    <= chunk_size ts)%Z \/ (total' <= 0)%Z).
Proof.
  induction cur as [|x r IH]; intros total cur' total' Ht Hne Hp; simpl in Hp.
  - destruct ((total >? chunk_overlap ts)%Z
              || ((total + len_d >? chunk_size ts)%Z && (total >? 0)%Z)) eqn:E;
      [discriminate|].
    injection Hp as <- <-. unfold zlen in Ht; simpl in Ht.
    repeat split; [assumption|constructor|right; lia].
  - inversion Hne as [|? ? Hx Hr]; subst.
    destruct ((zlen (join sep (x :: r)) >? chunk_overlap ts)%Z
              || ((zlen (join sep (x :: r)) + len_d + sep_len sep >? chunk_size ts)%Z
                  && (zlen (join sep (x :: r)) >? 0)%Z)) eqn:E.
    + eapply IH; [|exact Hr|exact Hp].
      rewrite join_cons_zlen. destruct r; [unfold zlen; simpl; lia | lia].
    + injection Hp as <- <-. repeat split; [assumption|].
      apply Bool.orb_false_iff in E as [_ E].
      apply Bool.andb_false_iff in E as [E|E]; zb; simpl in E |- *; [left | right]; lia.
Qed.

Definition fits (c : str) : Prop := (zlen c <= chunk_size ts)%Z.

(** State of the [_merge_splits] loop: [total] is the length of the joined
    [current_doc], which fits, and every emitted document fits. *)
Definition merge_inv (st : list str * list str * Z) : Prop :=
  let '(docs, cur, total) := st in
  total = zlen (join sep cur) /\ (total <= chunk_size ts)%Z /\
  Forall nonempty cur /\ Forall fits docs.

Lemma join_single_zlen (d : str) : zlen (join sep [d]) = zlen d.
Proof. simpl. rewrite app_nil_r. reflexivity. Qed.

Lemma emitted_fits (cur : list str) :
  (zlen (join sep cur) <= chunk_size ts)%Z -> Forall fits (opt_list (join_docs sep cur)).
Proof.
  intros H. destruct (join_docs sep cur) as [t|] eqn:E; simpl; [|constructor].
  constructor; [|constructor]. apply join_docs_length in E. unfold fits. lia.
Qed.

Lemma merge_step_inv (st st' : list str * list str * Z) (d : str) :
  merge_inv st -> nonempty d -> fits d ->
  merge_step ts sep st d = Ok st' -> merge_inv st'.
Proof.
  destruct st as [[docs cur] total]. intros (Ht & Hle & Hne & Hdocs) Hd Hdl Hs.
  unfold fits in Hdl. unfold merge_step in Hs.
  destruct ((total + zlen d + match cur with [] => 0 | _ => sep_len sep end
             >? chunk_size ts)%Z) eqn:E.
  - destruct cur as [|x r].
    + injection Hs as <-. unfold zlen in Ht; simpl in Ht.
      repeat split; [rewrite join_single_zlen; lia | lia | repeat constructor; exact Hd | exact Hdocs].
    + destruct (pop_loop ts sep (zlen d) (x :: r) total) as [[cur' total']|e] eqn:P;
        [|discriminate].
      injection Hs as <-.
      apply pop_loop_ok in P as (Ht' & Hne' & Hb); [|exact Ht|exact Hne].
      repeat split.
      * rewrite join_snoc_zlen. lia.
      * destruct Hb as [Hb|Hb]; [lia|].
        destruct cur' as [|y r'].
        -- unfold zlen in *; simpl in Ht' |- *. lia.
        -- exfalso. inversion Hne' as [|? ? Hy]; subst.
           pose proof (zlen_pos y Hy). pose proof (join_zlen_head sep y r'). lia.
      * apply Forall_app; split; [exact Hne'|repeat constructor; exact Hd].
      * apply Forall_app; split; [exact Hdocs|]. apply emitted_fits. lia.
  - injection Hs as <-. zb.
    repeat split.
    + rewrite join_snoc_zlen. lia.
    + lia.
    + apply Forall_app; split; [exact Hne|repeat constructor; exact Hd].
    + exact Hdocs.
Qed.

Lemma merge_loop_inv (splits : list str) : forall st st',
  merge_inv st -> Forall (fun d => nonempty d /\ fits d) splits ->
  merge_loop ts sep st splits = Ok st' -> merge_inv st'.
Proof.
  induction splits as [|d ds IH]; intros st st' Hi Hs Hm; simpl in Hm.
  - injection Hm as <-. exact Hi.
  - inversion Hs as [|? ? [Hd Hdf] Hds]; subst.
    destruct (merge_step ts sep st d) as [st1|e] eqn:E; [|discriminate].
    apply (IH st1); [|exact Hds|exact Hm].
    exact (merge_step_inv _ _ _ Hi Hd Hdf E).
Qed.

Lemma merge_splits_fits (splits docs : list str) :
  Forall (fun d => nonempty d /\ fits d) splits ->
  merge_splits ts sep splits = Ok docs -> Forall fits docs.
Proof.
  intros Hs Hm. unfold merge_splits in Hm.
  destruct splits as [|d0 ds].
  - simpl in Hm. injection Hm as <-. constructor.
  - assert (H0 : (0 <= chunk_size ts)%Z).
    { inversion Hs as [|? ? [_ Hf] _]. unfold fits in Hf. pose proof (zlen_nonneg d0). lia. }
    destruct (merge_loop ts sep ([], [], 0%Z) (d0 :: ds)) as [[[docs' cur] total]|e] eqn:E;
      [|discriminate].
    injection Hm as <-.
    apply merge_loop_inv in E as (Ht & Hle & _ & Hdocs); [|repeat split; [lia|constructor|constructor]|exact Hs].
    apply Forall_app; split; [exact Hdocs|]. apply emitted_fits. lia.
Qed.

End MergeBound.

(** ** [_split_text] keeps every chunk within [chunk_size] *)

Definition bounded (ts : TextSplitter) (c : str) : Prop :=
  (zlen c <= chunk_size ts)%Z \/ ((chunk_size ts < 1)%Z /\ length c = 1).

Lemma fits_bounded (ts : TextSplitter) (l : list str) :
  Forall (fits ts) l -> Forall (bounded ts) l.
Proof. intros H. eapply Forall_impl; [exact H|]. intros c Hc. left. exact Hc. Qed.

Lemma flush_good_bounded (ts : TextSplitter) (final good final1 : list str) :
  Forall (bounded ts) final -> Forall (fun d => nonempty d /\ fits ts d) good ->
  flush_good ts final good = Ok final1 -> Forall (bounded ts) final1.
Proof.
  intros Hf Hg H. unfold flush_good in H. destruct good as [|g gs].
  - injection H as <-. exact Hf.
  - destruct (merge_splits ts [] (g :: gs)) as [m|e] eqn:M; simpl in H; [|discriminate].
    injection H as <-. apply Forall_app; split; [exact Hf|].
    apply fits_bounded. exact (merge_splits_fits ts [] _ _ Hg M).
Qed.

Lemma split_loop_bounded (ts : TextSplitter) (recurse : option (str -> Res (list str))) :
  forall splits final good out,
  Forall (bounded ts) final -> Forall (fun d => nonempty d /\ fits ts d) good ->
  Forall nonempty splits ->
  (recurse = None -> Forall (fun s => length s = 1) splits) ->
  (forall f, recurse = Some f -> forall s o, f s = Ok o -> Forall (bounded ts) o) ->
  split_loop ts recurse splits final good = Ok out -> Forall (bounded ts) out.
Proof.
  induction splits as [|s ss IH]; intros final good out Hf Hg Hs Hnone Hsome H; simpl in H.
  - exact (flush_good_bounded ts _ _ _ Hf Hg H).
  - inversion Hs as [|? ? Hs1 Hss]; subst.
    assert (Hnone' : recurse = None -> Forall (fun s => length s = 1) ss).
    { intros E. specialize (Hnone E). inversion Hnone; assumption. }
    destruct (zlen s <? chunk_size ts)%Z eqn:E.
    + apply (IH final (good ++ [s])); try assumption.
      apply Forall_app; split; [exact Hg|]. constructor; [|constructor].
      split; [exact Hs1|]. unfold fits. zb. lia.
    + destruct (flush_good ts final good) as [final1|e] eqn:F; simpl in H; [|discriminate].
      pose proof (flush_good_bounded ts _ _ _ Hf Hg F) as Hf1.
      destruct recurse as [f|].
      * destruct (f s) as [sub|e] eqn:Fs; simpl in H; [|discriminate].
        apply (IH (final1 ++ sub) []); try assumption; [|constructor].
        apply Forall_app; split; [exact Hf1|]. exact (Hsome f eq_refl s sub Fs).
      * apply (IH (final1 ++ [s]) []); try assumption; [|constructor].
        apply Forall_app; split; [exact Hf1|]. constructor; [|constructor].
        specialize (Hnone eq_refl). inversion Hnone as [|? ? Hl]; subst.
        unfold bounded, zlen. zb. unfold zlen in E. rewrite Hl in E |- *.
        destruct (Z.eq_dec (chunk_size ts) 1%Z); [left|right]; lia.
Qed.

Lemma split_with_sep_nonempty (sep text : str) : Forall nonempty (split_with_sep sep text).
Proof.
  unfold split_with_sep. destruct sep as [|c s].
  - apply List.Forall_forall. intros x Hx. apply in_map_iff in Hx as (y & <- & _). discriminate.
  - apply List.Forall_forall. intros x Hx. apply filter_In in Hx as [_ Hx].
    unfold nonempty. intros ->. simpl in Hx. discriminate.
Qed.

Lemma split_with_sep_chars (text : str) :
  Forall (fun s => length s = 1) (split_with_sep [] text).
Proof.
  apply List.Forall_forall. intros x Hx. apply in_map_iff in Hx as (y & <- & _). reflexivity.
Qed.

Lemma split_text_rec_bounded (ts : TextSplitter) : forall seps last text out,
  In [] seps -> split_text_rec ts seps last text = Ok out -> Forall (bounded ts) out.
Proof.
  induction seps as [|s rest IH]; intros last text out Hin H; [destruct Hin|].
  simpl in H. destruct s as [|c s'].
  - unfold split_level in H.
    apply (split_loop_bounded ts None _ _ _ _ (List.Forall_nil _) (List.Forall_nil _)
             (split_with_sep_nonempty [] text) (fun _ => split_with_sep_chars text)
             (fun f E => ltac:(discriminate E)) H).
  - assert (Hin' : In [] rest) by (destruct Hin as [E|E]; [discriminate E|exact E]).
    destruct (contains (c :: s') text).
    + destruct rest as [|r0 rs]; [destruct Hin'|].
      unfold split_level in H.
      refine (split_loop_bounded ts (Some (split_text_rec ts (r0 :: rs) last)) _ _ _ _
                (List.Forall_nil _) (List.Forall_nil _)
                (split_with_sep_nonempty _ text) (fun E => ltac:(discriminate E)) _ H).
      intros f E s0 o Ho. injection E as <-. exact (IH last s0 o Hin' Ho).
    + exact (IH last text out Hin' H).
Qed.

(** ** Chunk-id encoding *)

Lemma uint_chars_inj : forall d1 d2 : Decimal.uint, uint_chars d1 = uint_chars d2 -> d1 = d2.
Proof.
  induction d1; destruct d2; simpl; intros H; try discriminate; try reflexivity;
    injection H as H; f_equal; auto.
Qed.

Lemma uint_chars_no_underscore (d : Decimal.uint) : ~ In underscore (uint_chars d).
Proof.
  induction d; simpl; [tauto| ..]; intros [H|H]; try discriminate; auto.
Qed.

Lemma str_of_nat_inj (i j : nat) : str_of_nat i = str_of_nat j -> i = j.
Proof.
  unfold str_of_nat. intros H. apply uint_chars_inj in H.
  exact (DecimalNat.Unsigned.to_uint_inj i j H).
Qed.

(** Two strings without [_], each followed by [_]: the first [_] splits them. *)
Lemma app_underscore_inv (a b x y : str) :
  ~ In underscore a -> ~ In underscore b ->
  a ++ underscore :: x = b ++ underscore :: y -> a = b /\ x = y.
Proof.
  revert b. induction a as [|c a IH]; intros b Ha Hb H; destruct b as [|c' b]; simpl in H.
  - injection H as <-. split; reflexivity.
  - injection H as E _. exfalso. apply Hb. left. symmetry. exact E.
  - injection H as E _. exfalso. apply Ha. left. exact E.
  - injection H as <- H.
    destruct (IH b (fun h => Ha (or_intror h)) (fun h => Hb (or_intror h)) H) as [-> ->].
    split; reflexivity.
Qed.

(** ** The pipeline: configuration, metadata and store *)

Lemma configure_ok_again (cs co : Z) (st st1 : URLChunker) :
  configure cs co st = (Ok tt, st1) ->
  forall st', text_splitter st' = text_splitter st1 -> configure cs co st' = (Ok tt, st').
Proof.
  unfold configure. intros H st' Hs.
  destruct (negb (cs =? 1000)%Z || negb (co =? 200)%Z); [|reflexivity].
  destruct (new_splitter cs co url_separators) as [sp|e]; [|discriminate].
  injection H as <-. destruct st' as [sp' cl']. simpl in Hs. subst sp'. reflexivity.
Qed.

Lemma configure_err (cs co : Z) (st st1 : URLChunker) (e : str) :
  configure cs co st = (Err e, st1) ->
  st1 = st /\ forall st', configure cs co st' = (Err e, st').
Proof.
  unfold configure. intros H.
  destruct (negb (cs =? 1000)%Z || negb (co =? 200)%Z); [|discriminate].
  destruct (new_splitter cs co url_separators) as [sp|e']; [discriminate|].
  injection H as -> <-. split; [reflexivity|]. intros st'. reflexivity.
Qed.

Lemma configure_client (cs co : Z) (st : URLChunker) :
  client (snd (configure cs co st)) = client st.
Proof.
  unfold configure.
  destruct (negb (cs =? 1000)%Z || negb (co =? 200)%Z); [|reflexivity].
  destruct (new_splitter cs co url_separators); reflexivity.
Qed.

Lemma extract_metadata_url (w : World) (now html url : str) :
  extract_metadata w now html url !! k_url = Some (VStr url).
Proof.
  unfold extract_metadata.
  destruct (soup_fields w html) as [[[[[t d] k] a] l]|];
    rewrite !lookup_insert_ne by (vm_compute; congruence); apply lookup_insert_eq.
Qed.

Lemma assemble_shape (w : World) (md1 md2 : Metadata) (sn1 sn2 : option str) :
  md1 !! k_url = md2 !! k_url ->
  forall chunks i,
  res_map cd_shape (assemble w md1 sn1 i chunks) = res_map cd_shape (assemble w md2 sn2 i chunks).
Proof.
  intros Hu. induction chunks as [|c cs IH]; intros i; simpl; [reflexivity|].
  rewrite Hu. destruct (md2 !! k_url) as [url|]; [|reflexivity].
  specialize (IH (S i)).
  destruct (assemble w md1 sn1 (S i) cs) as [a|e1], (assemble w md2 sn2 (S i) cs) as [b|e2];
    simpl in IH |- *; try discriminate.
  - unfold cd_shape in IH |- *. simpl. injection IH as E1 E2 E3.
    rewrite E1, E2, E3. reflexivity.
  - exact IH.
Qed.

Lemma create_chunks_shape (w : World) (sp : TextSplitter) (text : str)
    (md1 md2 : Metadata) (sn1 sn2 : option str) :
  md1 !! k_url = md2 !! k_url ->
  res_map cd_shape (create_chunks w sp text md1 sn1)
  = res_map cd_shape (create_chunks w sp text md2 sn2).
Proof.
  intros Hu. unfold create_chunks.
  destruct (split_text sp text) as [chunks|e]; simpl; [|reflexivity].
  apply assemble_shape. exact Hu.
Qed.

Lemma chunk_metadata_nonempty (md : Metadata) (i : nat) (c : str) (sn : option str) :
  Nat.eqb (size (chunk_metadata md i c sn)) 0 = false.
Proof.
  apply Nat.eqb_neq. apply map_size_ne_0_lookup. exists k_chunk_size.
  unfold chunk_metadata. destruct (truthy_name sn).
  - rewrite lookup_insert_ne by (vm_compute; congruence). rewrite lookup_insert_eq. eauto.
  - rewrite lookup_insert_eq. eauto.
Qed.

Lemma create_chunks_metas_nonempty (w : World) (sp : TextSplitter) (text : str)
    (md : Metadata) (sn : option str) (d : ChunksData) :
  create_chunks w sp text md sn = Ok d ->
  existsb (fun m : Metadata => Nat.eqb (size m) 0) (cd_metadatas d) = false.
Proof.
  unfold create_chunks. destruct (split_text sp text) as [chunks|e]; simpl; [|discriminate].
  enough (G : forall i d, assemble w md sn i chunks = Ok d ->
                existsb (fun m : Metadata => Nat.eqb (size m) 0) (cd_metadatas d) = false)
    by apply G.
  clear d. induction chunks as [|c cs IH]; intros i d H; simpl in H.
  - injection H as <-. reflexivity.
  - destruct (md !! k_url); [|discriminate].
    destruct (assemble w md sn (S i) cs) as [rest|e] eqn:R; simpl in H; [|discriminate].
    injection H as <-. cbn [existsb cd_metadatas]. rewrite chunk_metadata_nonempty. exact (IH _ _ R).
Qed.

Lemma get_or_create_ok (w : World) (name : str) (cl cl1 : Client) :
  get_or_create_collection w name cl = Ok cl1 ->
  collection_name_ok w name = true /\ is_Some (cl1 !! name).
Proof.
  unfold get_or_create_collection. destruct (collection_name_ok w name); [|discriminate].
  intros H. split; [reflexivity|].
  destruct (cl !! name) eqn:E; injection H as <-; [rewrite E; eauto|].
  rewrite lookup_insert_eq. eauto.
Qed.

Lemma get_or_create_existing (w : World) (name : str) (cl : Client) :
  collection_name_ok w name = true -> is_Some (cl !! name) ->
  get_or_create_collection w name cl = Ok cl.
Proof.
  intros Hn [col Hc]. unfold get_or_create_collection. rewrite Hn, Hc. reflexivity.
Qed.

Lemma upsert_records_dom (l : list (str * str * Metadata)) : forall col : Collection,
  dom (fold_left (fun c '(i, d, m) => <[i := (d, m)]> c) l col)
  = dom col ∪ list_to_set (map (fun r => r.1.1) l).
Proof.
  induction l as [|[[i d] m] l IH]; intros col; simpl.
  - set_solver.
  - rewrite IH, dom_insert_L. set_solver.
Qed.

Lemma zip_keys (ids docs : list str) : forall (m1 m2 : list Metadata),
  length m1 = length m2 ->
  map (fun r => r.1.1) (zip (zip ids docs) m1) = map (fun r => r.1.1) (zip (zip ids docs) m2).
Proof.
  revert docs. induction ids as [|i ids IH]; intros docs m1 m2 Hl; [reflexivity|].
  destruct docs as [|d docs]; [reflexivity|].
  destruct m1 as [|a m1], m2 as [|b m2]; simpl in Hl; try discriminate; simpl; [reflexivity|].
  f_equal. apply IH. lia.
Qed.

Lemma upsert_twice_dom (ids docs : list str) (m1 m2 : list Metadata) (col : Collection) :
  length m1 = length m2 ->
  dom (upsert_records ids docs m2 (upsert_records ids docs m1 col))
  = dom (upsert_records ids docs m1 col).
Proof.
  intros Hl. unfold upsert_records. rewrite !upsert_records_dom.
  rewrite (zip_keys ids docs m2 m1) by lia. set_solver.
Qed.

Lemma count_items_dom (name : str) (a b : Client) :
  (fun col : Collection => dom col) <$> a !! name = (fun col : Collection => dom col) <$> b !! name ->
  count_items name a = count_items name b.
Proof.
  unfold count_items. destruct (a !! name) as [ca|], (b !! name) as [cb|]; simpl;
    intros H; try discriminate; [|reflexivity].
  injection H as H. rewrite <- (size_dom ca), <- (size_dom cb), H. reflexivity.
Qed.

Lemma upsert_err (name : str) (ids docs : list str) (metas : list Metadata) (cl : Client)
    (e : str) :
  upsert name ids docs metas cl = Err e ->
  forall docs' metas' cl',
  existsb (fun m : Metadata => Nat.eqb (size m) 0) metas'
  = existsb (fun m : Metadata => Nat.eqb (size m) 0) metas ->
  upsert name ids docs' metas' cl' = Err e.
Proof.
  unfold upsert. intros H docs' metas' cl' Hm. rewrite Hm.
  destruct ids; [exact H|].
  destruct (bool_decide (NoDup _)); [|exact H].
  destruct (existsb _ metas); [exact H|discriminate].
Qed.

Lemma upsert_ok (name : str) (ids docs : list str) (metas : list Metadata) (cl cl2 : Client) :
  upsert name ids docs metas cl = Ok cl2 ->
  cl2 = <[name := upsert_records ids docs metas (default ∅ (cl !! name))]> cl /\
  forall docs' metas' cl',
  existsb (fun m : Metadata => Nat.eqb (size m) 0) metas' = false ->
  upsert name ids docs' metas' cl'
    = Ok (<[name := upsert_records ids docs' metas' (default ∅ (cl' !! name))]> cl').
Proof.
  unfold upsert. intros H. destruct ids; [discriminate|].
  destruct (bool_decide (NoDup _)); [|discriminate].
  destruct (existsb _ metas); [discriminate|].
  injection H as <-. split; [reflexivity|]. intros docs' metas' cl' Hm. rewrite Hm. reflexivity.
Qed.

Lemma upsert_metas (name : str) (ids docs : list str) (metas : list Metadata) (cl cl2 : Client) :
  upsert name ids docs metas cl = Ok cl2 ->
  existsb (fun m : Metadata => Nat.eqb (size m) 0) metas = false.
Proof.
  unfold upsert. destruct ids; [discriminate|].
  destruct (bool_decide (NoDup _)); [|discriminate].
  destruct (existsb _ metas); [discriminate|reflexivity].
Qed.

Lemma process_url_r_url (w : World) (now url coll : str) (cs co : Z) (sn : option str)
    (st : URLChunker) :
  r_url (fst (process_url w now url coll cs co sn st)) = url.
Proof.
  unfold process_url, process_url_body, mbind, lift, mret, get_splitter.
  destruct (configure cs co st) as [[[]|e] st1]; [|reflexivity].
  destruct (fetch_content w url) as [html|e]; [|reflexivity].
  destruct (extract_text w html) as [text|e]; [|reflexivity].
  destruct (strip text); [reflexivity|].
  destruct (create_chunks _ _ _ _ _) as [d|e]; [|reflexivity].
  destruct (save_to_chroma w d coll st1) as [[[]|e] st2]; reflexivity.
Qed.

Lemma process_urls_from_shape (w : World) (clock : nat -> str) (coll : str) (cs co : Z)
    (sn : option str) (urls : list str) : forall k st,
  length (fst (process_urls_from w clock k urls coll cs co sn st)) = length urls /\
  map r_url (fst (process_urls_from w clock k urls coll cs co sn st)) = urls.
Proof.
  induction urls as [|u us IH]; intros k st; simpl; [split; reflexivity|].
  destruct (process_url w (clock k) u coll cs co sn st) as [r st1] eqn:P.
  specialize (IH (S k) st1).
  destruct (process_urls_from w clock (S k) us coll cs co sn st1) as [rs st2].
  simpl in IH |- *. destruct IH as [IH1 IH2]. split; [lia|].
  rewrite IH2. f_equal.
  pose proof (process_url_r_url w (clock k) u coll cs co sn st) as Hu.
  rewrite P in Hu. exact Hu.
Qed.

Lemma process_urls_from_app (w : World) (clock : nat -> str) (coll : str) (cs co : Z)
    (sn : option str) (us1 us2 : list str) : forall k st,
  process_urls_from w clock k (us1 ++ us2) coll cs co sn st =
  let '(rs1, st1) := process_urls_from w clock k us1 coll cs co sn st in
  let '(rs2, st2) := process_urls_from w clock (k + length us1) us2 coll cs co sn st1 in
  (rs1 ++ rs2, st2).
Proof.
  induction us1 as [|u us1 IH]; intros k st; simpl.
  - rewrite Nat.add_0_r. destruct (process_urls_from w clock k us2 coll cs co sn st).
    reflexivity.
  - destruct (process_url w (clock k) u coll cs co sn st) as [r st1].
    rewrite IH. replace (k + S (length us1)) with (S k + length us1) by lia.
    destruct (process_urls_from w clock (S k) us1 coll cs co sn st1) as [rs1 st1'].
    destruct (process_urls_from w clock (S k + length us1) us2 coll cs co sn st1').
    reflexivity.
Qed.

Lemma assemble_ids (w : World) (md : Metadata) (sn : option str) (url : Value) :
  md !! k_url = Some url ->
  forall chunks i d, assemble w md sn i chunks = Ok d ->
  cd_chunks d = chunks /\
  cd_ids d = imap (fun j c => sha256_hexdigest w (id_input url (i + j) c)) chunks.
Proof.
  intros Hu. induction chunks as [|c cs IH]; intros i d H; simpl in H.
  - injection H as <-. split; reflexivity.
  - rewrite Hu in H.
    destruct (assemble w md sn (S i) cs) as [rest|e] eqn:R; simpl in H; [|discriminate].
    injection H as <-. destruct (IH (S i) rest R) as [E1 E2]. simpl.
    rewrite E1, E2, ?Nat.add_0_r. split; [reflexivity|]. f_equal.
    apply imap_ext. intros j x _. simpl. do 3 f_equal. lia.
Qed.

Lemma add_texts_records_ids (w : World) (sp : TextSplitter)
    (metadatas : option (list Metadata)) (sn : option str) (texts : list str) :
  forall i chunks ids metas,
  add_texts_records w sp metadatas sn i texts = Ok (chunks, ids, metas) ->
  ids = map (sha256_hexdigest w) chunks.
Proof.
  induction texts as [|t ts IH]; intros i chunks ids metas H; simpl in H.
  - injection H as <- <- <-. reflexivity.
  - destruct (split_text sp t) as [sc|e]; simpl in H; [|discriminate].
    destruct (add_texts_records w sp metadatas sn (S i) ts) as [[[c1 i1] m1]|e] eqn:R;
      simpl in H; [|discriminate].
    injection H as <- <- <-. rewrite (IH _ _ _ _ R), map_app. reflexivity.
Qed.

Lemma new_splitter_ok (cs co : Z) (seps : list str) :
  (0 < cs)%Z -> (0 <= co <= cs)%Z -> new_splitter cs co seps = Ok (mkSplitter cs co seps).
Proof.
  intros H1 H2. unfold new_splitter.
  replace (cs <=? 0)%Z with false by (symmetry; apply Z.leb_gt; lia).
  replace (co <? 0)%Z with false by (symmetry; apply Z.ltb_ge; lia).
  replace (co >? cs)%Z with false by (symmetry; rewrite Z.gtb_ltb; apply Z.ltb_ge; lia).
  reflexivity.
Qed.

Lemma new_splitter_Ok_inv (cs co : Z) (seps : list str) (sp : TextSplitter) :
  new_splitter cs co seps = Ok sp ->
  sp = mkSplitter cs co seps /\ (0 < cs)%Z /\ (0 <= co <= cs)%Z.
Proof.
  unfold new_splitter.
  destruct (Z.leb_spec cs 0); [discriminate|].
  destruct (Z.ltb_spec co 0); [discriminate|].
  rewrite Z.gtb_ltb. destruct (Z.ltb_spec cs co); [discriminate|].
  intros E; injection E as <-. split; [reflexivity|lia].
Qed.

(* ------------------------------------------------------------------ *)
(** ** Claims *)

(** C1.  For every text and policy whose separator list contains the empty
    separator, every chunk [split_text] produces has length at most
    [chunk_size]; the only exception is a single character, which cannot be
    split further, when [chunk_size < 1]. *)
Theorem split_text_size_bound (ts : TextSplitter) (text : str) (chunks : list str) :
  In [] (separators ts) -> split_text ts text = Ok chunks ->
  forall c, In c chunks ->
  (zlen c <= chunk_size ts)%Z \/ ((chunk_size ts < 1)%Z /\ length c = 1).
Proof.
  intros Hin H c Hc. unfold split_text in H.
  destruct (separators ts) as [|s0 ss]; [destruct Hin|].
  pose proof (split_text_rec_bounded ts _ _ _ _ Hin H) as HB.
  rewrite List.Forall_forall in HB. exact (HB c Hc).
Qed.

Lemma split_text_size_bound_witness :
  In [] url_separators /\
  split_text (mkSplitter 5 2 url_separators) (s2l "A. B. C. D.")
    = Ok [s2l "A. B"; s2l ". C"; s2l ". D."] /\
  ((zlen (s2l ". D.") <= 5)%Z \/ ((5 < 1)%Z /\ length (s2l ". D.") = 1)).
Proof.
  assert (Hin : In [] url_separators) by (simpl; tauto).
  assert (Hs : split_text (mkSplitter 5 2 url_separators) (s2l "A. B. C. D.")
               = Ok [s2l "A. B"; s2l ". C"; s2l ". D."]) by (vm_compute; reflexivity).
  split; [exact Hin|]. split; [exact Hs|].
  exact (split_text_size_bound (mkSplitter 5 2 url_separators) _ _ Hin Hs (s2l ". D.")
           ltac:(simpl; tauto)).
Defined.

(** C2 (code_bug).  The ids of [create_chunks] ('Генерация уникального ID
    для chunk') hash [f"{url}_{i}_{chunk}"], and [_] occurs in urls and in
    chunk texts.  The page [https://example.org/a] with the text [0_b] and
    the page [https://example.org/a_0] with the text [b] give their only
    chunk the same id, for every hash function and whatever the other
    metadata, although the triples (url, index, chunk) differ.  Ingesting
    both pages into one collection therefore leaves one record: the second
    page overwrites the chunk of the first. *)
Theorem create_chunks_id_collision :
  let url1 := s2l "https://example.org/a" in
  let url2 := s2l "https://example.org/a_0" in
  let sp := mkSplitter 1000 200 url_separators in
  (forall w now html1 html2 sn, exists d1 d2,
     create_chunks w sp (s2l "0_b") (extract_metadata w now html1 url1) sn = Ok d1 /\
     create_chunks w sp (s2l "b") (extract_metadata w now html2 url2) sn = Ok d2 /\
     cd_chunks d1 = [s2l "0_b"] /\ cd_chunks d2 = [s2l "b"] /\
     (VStr url1, 0, s2l "0_b") <> (VStr url2, 0, s2l "b") /\
     cd_ids d1 = cd_ids d2) /\
  (let w := site_world (fun u => if bool_decide (u = url1) then s2l "0_b" else s2l "b") in
   let '(r1, st1) := process_url w demo_now url1 demo_coll 1000 200 None (new_url_chunker ∅) in
   let '(r2, st2) := process_url w demo_now url2 demo_coll 1000 200 None st1 in
   r_success r1 = true /\ r_chunks_created r1 = 1 /\
   r_success r2 = true /\ r_chunks_created r2 = 1 /\
   count_items demo_coll (client st2) = Ok 1).
Proof.
  cbv zeta. split.
  - intros w now html1 html2 sn. unfold create_chunks.
    replace (split_text (mkSplitter 1000 200 url_separators) (s2l "0_b")) with (Ok [s2l "0_b"])
      by (vm_compute; reflexivity).
    replace (split_text (mkSplitter 1000 200 url_separators) (s2l "b")) with (Ok [s2l "b"])
      by (vm_compute; reflexivity).
    simpl rbind. unfold assemble. rewrite !extract_metadata_url. simpl rbind.
    eexists _, _. split; [reflexivity|]. split; [reflexivity|].
    split; [reflexivity|]. split; [reflexivity|].
    split; [vm_compute; intros H; discriminate H|].
    vm_compute. reflexivity.
  - vm_compute. repeat split; reflexivity.
Qed.

(** X22: for one document reference the encoding [f"{url}_{i}_{chunk}"]
    is injective: distinct (index, chunk) pairs give distinct hashed
    strings, since the decimal index holds no [_]. *)
Theorem id_input_injective_same_url (url : Value) (i j : nat) (c d : str) :
  id_input url i c = id_input url j d -> i = j /\ c = d.
Proof.
  unfold id_input. intros H. apply app_inv_head in H. simpl in H. injection H as H.
  apply app_underscore_inv in H as [Hn ->];
    [|apply uint_chars_no_underscore|apply uint_chars_no_underscore].
  split; [apply str_of_nat_inj; exact Hn|reflexivity].
Qed.

Lemma id_input_injective_same_url_witness :
  id_input (VStr demo_url) 3 (s2l "x_y") = id_input (VStr demo_url) 3 (s2l "x_y") /\
  (3 = 3 /\ s2l "x_y" = s2l "x_y").
Proof.
  split; [reflexivity|].
  exact (id_input_injective_same_url (VStr demo_url) 3 3 (s2l "x_y") (s2l "x_y") eq_refl).
Defined.

(** ** The splitter persists across calls *)

(** C4 (code_bug).  On one [URLChunker], a call with [chunk_size = 5,
    chunk_overlap = 0] replaces [self.text_splitter]; a later call with the
    default parameters (1000, 200) keeps that splitter, because the
    reconfiguration is skipped for the defaults.  The same page then gives
    two chunks, where a fresh [URLChunker] gives one. *)
Theorem process_url_stale_splitter :
  let w := demo_world (s2l "abcdefgh") in
  let st0 := new_url_chunker ∅ in
  let st1 := snd (process_url w demo_now (s2l "https://example.org/b") demo_coll 5 0 None st0) in
  r_chunks_created (fst (process_url w demo_now demo_url demo_coll 1000 200 None st1)) = 2 /\
  r_chunks_created (fst (process_url w demo_now demo_url demo_coll 1000 200 None st0)) = 1 /\
  text_splitter st1 = mkSplitter 5 0 url_separators.
Proof. vm_compute. repeat split; reflexivity. Qed.

(** C5 (counterexample).  [chunk_overlap = chunk_size = 10] is not
    rejected: the splitter is built and the page is chunked and stored. *)
Lemma overlap_equal_size_accepted :
  let w := demo_world (s2l "abcdefgh") in
  (10 >= 10)%Z /\
  r_success (fst (process_url w demo_now demo_url demo_coll 10 10 None (new_url_chunker ∅)))
    = true /\
  r_chunks_created (fst (process_url w demo_now demo_url demo_coll 10 10 None (new_url_chunker ∅)))
    = 1.
Proof. vm_compute. split; [discriminate|split; reflexivity]. Qed.

(** C9 (code_bug).  The docstring of [add_texts] says it checks for
    duplicates, but the ids are [sha256(chunk)] and nothing removes
    repeated ones: whenever two chunks of the batch have the same text (for
    every hash function), the single [upsert] of the call is rejected with
    ChromaDB's [DuplicateIDError] and no record of the batch is written;
    at most the empty collection created by [get_or_create_collection] is
    added. *)
Theorem add_texts_duplicate_content (w : World) (coll : str) (texts : list str)
    (metadatas : option (list Metadata)) (sn : option str) (cs co : Z) (cl : Client)
    (chunks ids : list str) (metas : list Metadata) :
  collection_name_ok w coll = true -> (0 < cs)%Z -> (0 <= co <= cs)%Z ->
  add_texts_records w (mkSplitter cs co default_separators) metadatas sn 0 texts
  = Ok (chunks, ids, metas) ->
  ~ NoDup chunks ->
  add_texts w coll texts metadatas sn cs co cl
  = (Err duplicate_ids_msg,
     match cl !! coll with Some _ => cl | None => <[coll := ∅]> cl end).
Proof.
  intros Hn Hcs Hco HR Hd. unfold add_texts, get_or_create_collection. rewrite Hn.
  rewrite (new_splitter_ok _ _ _ Hcs Hco), HR.
  pose proof (add_texts_records_ids _ _ _ _ _ _ _ _ _ HR) as Hi.
  assert (Hu : forall cl1, upsert coll ids chunks metas cl1 = Err duplicate_ids_msg).
  { intros cl1. unfold upsert. subst ids.
    destruct chunks as [|c cs']; [destruct Hd; constructor|]. simpl map.
    rewrite bool_decide_eq_false_2; [reflexivity|].
    intros HN. apply Hd. exact (NoDup_fmap_1 (sha256_hexdigest w) (c :: cs') HN). }
  destruct chunks as [|c cs']; [destruct Hd; constructor|].
  destruct (cl !! coll); rewrite Hu; reflexivity.
Qed.

Lemma add_texts_duplicate_content_witness :
  let w := demo_world [] in
  let mds := Some [{[k_title := VStr (s2l "first")]}; {[k_title := VStr (s2l "second")]}] in
  add_texts w demo_coll [s2l "Hello"; s2l "Hello"] mds None 1000 200 ∅
  = (Err duplicate_ids_msg, <[demo_coll := ∅]> ∅).
Proof.
  cbv zeta.
  rewrite (add_texts_duplicate_content (demo_world []) demo_coll [s2l "Hello"; s2l "Hello"]
           (Some [{[k_title := VStr (s2l "first")]}; {[k_title := VStr (s2l "second")]}])
           None 1000 200 ∅ [s2l "Hello"; s2l "Hello"] [s2l "Hello"; s2l "Hello"]
           [{[k_title := VStr (s2l "first")]}; {[k_title := VStr (s2l "second")]}]).
  - reflexivity.
  - reflexivity.
  - lia.
  - lia.
  - vm_compute. reflexivity.
  - intros H. inversion H as [|? ? Hn _]. apply Hn. left.
Defined.

(** C3.  Ingesting the same page into the same collection a second time,
    with the same parameters (the clock may have moved on), leaves the
    collection's count, and its set of ids, unchanged: the second call
    computes the same ids and every upserted record replaces an existing
    one. *)
Theorem process_url_idempotent (w : World) (now1 now2 url coll : str) (cs co : Z)
    (sn : option str) (st0 : URLChunker) :
  let st1 := snd (process_url w now1 url coll cs co sn st0) in
  let st2 := snd (process_url w now2 url coll cs co sn st1) in
  count_items coll (client st2) = count_items coll (client st1) /\
  (fun col : Collection => dom col) <$> client st2 !! coll
  = (fun col : Collection => dom col) <$> client st1 !! coll.
Proof.
  cbv zeta.
  enough (H : (fun col : Collection => dom col) <$>
                client (snd (process_url w now2 url coll cs co sn
                               (snd (process_url w now1 url coll cs co sn st0)))) !! coll
              = (fun col : Collection => dom col) <$>
                client (snd (process_url w now1 url coll cs co sn st0)) !! coll)
    by (split; [apply count_items_dom|]; exact H).
  unfold process_url, process_url_body, mbind, lift, mret, get_splitter.
  destruct (configure cs co st0) as [[[]|e] st1] eqn:C1.
  2:{ destruct (configure_err _ _ _ _ _ C1) as [-> Hc]. rewrite Hc. reflexivity. }
  pose proof (configure_ok_again _ _ _ _ C1) as Hc.
  destruct (fetch_content w url) as [html|e] eqn:F; simpl;
    [|rewrite (Hc st1 eq_refl); reflexivity].
  destruct (extract_text w html) as [text|e] eqn:X; simpl;
    [|rewrite (Hc st1 eq_refl); reflexivity].
  destruct (strip text) as [|ch r] eqn:B; simpl;
    [rewrite (Hc st1 eq_refl); reflexivity|].
  set (md1 := extract_metadata w now1 html url).
  set (md2 := extract_metadata w now2 html url).
  pose proof (create_chunks_shape w (text_splitter st1) text md1 md2 sn sn) as Sh.
  specialize (Sh ltac:(unfold md1, md2; rewrite !extract_metadata_url; reflexivity)).
  destruct (create_chunks w (text_splitter st1) text md1 sn) as [d1|e] eqn:CC1;
    destruct (create_chunks w (text_splitter st1) text md2 sn) as [d2|e2] eqn:CC2;
    simpl in Sh; try discriminate.
  2:{ simpl. rewrite (Hc st1 eq_refl). simpl. rewrite CC2. reflexivity. }
  injection Sh as Ech Eid Elen.
  unfold save_to_chroma.
  destruct (get_or_create_collection w coll (client st1)) as [cl1|e] eqn:G.
  2:{ simpl. rewrite (Hc st1 eq_refl). simpl. rewrite CC2. unfold save_to_chroma.
      rewrite G. reflexivity. }
  destruct (get_or_create_ok _ _ _ _ G) as [Hn Hs1].
  assert (Hc' : forall cl, configure cs co (set_client cl st1) = (Ok tt, set_client cl st1))
    by (intros cl; apply Hc; reflexivity).
  destruct (upsert coll (cd_ids d1) (cd_chunks d1) (cd_metadatas d1) cl1) as [cl2|e] eqn:U.
  - destruct (upsert_ok _ _ _ _ _ _ U) as [-> Hu].
    simpl. rewrite Hc'. simpl. rewrite CC2. unfold save_to_chroma. simpl.
    rewrite get_or_create_existing by (rewrite ?lookup_insert_eq; eauto).
    rewrite <- Eid, <- Ech, Hu by exact (create_chunks_metas_nonempty _ _ _ _ _ _ CC2).
    simpl. rewrite !lookup_insert_eq. simpl.
    f_equal. apply upsert_twice_dom. lia.
  - simpl. rewrite Hc'. simpl. rewrite CC2. unfold save_to_chroma. simpl.
    rewrite (get_or_create_existing _ _ _ Hn Hs1).
    rewrite <- Eid, (upsert_err _ _ _ _ _ _ U); [reflexivity|].
    rewrite (create_chunks_metas_nonempty _ _ _ _ _ _ CC1),
            (create_chunks_metas_nonempty _ _ _ _ _ _ CC2). reflexivity.
Qed.

(** ** Rejected configurations *)

(** C5 (amended).  [TextSplitter.__init__] rejects [chunk_size <= 0],
    [chunk_overlap < 0] and [chunk_overlap > chunk_size], in this order, with
    a [ValueError]; [process_url] turns it into a failure result
    ([success = False], [chunks_created = 0]) carrying the message and
    leaves the [URLChunker] (splitter and store) as it was: the check runs
    before the page is fetched.  Any other policy, [chunk_overlap =
    chunk_size] included, is accepted: the call goes on as a call with the
    defaults on the [URLChunker] holding the new splitter. *)
Theorem process_url_rejects_invalid (w : World) (now url coll : str) (cs co : Z)
    (sn : option str) (st : URLChunker) :
  (forall e, r_success (failure_result url e) = false /\
             r_chunks_created (failure_result url e) = 0) /\
  ((cs <= 0)%Z ->
     process_url w now url coll cs co sn st = (failure_result url (chunk_size_msg cs), st)) /\
  ((0 < cs)%Z -> (co < 0)%Z ->
     process_url w now url coll cs co sn st = (failure_result url (overlap_neg_msg co), st)) /\
  ((0 < cs)%Z -> (0 <= co)%Z -> (cs < co)%Z ->
     process_url w now url coll cs co sn st = (failure_result url (overlap_msg cs co), st)) /\
  ((0 < cs)%Z -> (0 <= co <= cs)%Z -> cs <> 1000%Z \/ co <> 200%Z ->
     process_url w now url coll cs co sn st
     = process_url w now url coll 1000 200 sn (set_splitter (mkSplitter cs co url_separators) st)).
Proof.
  assert (Hre : (negb (cs =? 1000)%Z || negb (co =? 200)%Z)%bool = true ->
                forall e, new_splitter cs co url_separators = Err e ->
                process_url w now url coll cs co sn st = (failure_result url e, st)).
  { intros Hd e He. unfold process_url, process_url_body, mbind, configure.
    rewrite Hd, He. reflexivity. }
  assert (Hd : forall a b : Z, a <> 1000%Z \/ b <> 200%Z ->
               (negb (a =? 1000)%Z || negb (b =? 200)%Z)%bool = true).
  { intros a b H. destruct (Z.eqb_spec a 1000), (Z.eqb_spec b 200); simpl; try reflexivity.
    lia. }
  split; [intros e; split; reflexivity|].
  split; [|split; [|split]].
  - intros H. apply Hre; [apply Hd; lia|].
    unfold new_splitter. replace (cs <=? 0)%Z with true by (symmetry; apply Z.leb_le; lia).
    reflexivity.
  - intros H1 H2. apply Hre; [apply Hd; lia|].
    unfold new_splitter. replace (cs <=? 0)%Z with false by (symmetry; apply Z.leb_gt; lia).
    replace (co <? 0)%Z with true by (symmetry; apply Z.ltb_lt; lia). reflexivity.
  - intros H1 H2 H3. apply Hre; [apply Hd; lia|].
    unfold new_splitter. replace (cs <=? 0)%Z with false by (symmetry; apply Z.leb_gt; lia).
    replace (co <? 0)%Z with false by (symmetry; apply Z.ltb_ge; lia).
    replace (co >? cs)%Z with true by (symmetry; apply Z.gtb_lt; lia). reflexivity.
  - intros H1 H2 H3. unfold process_url, process_url_body, mbind at 1 3, configure at 1 2.
    rewrite (Hd _ _ H3), (new_splitter_ok _ _ _ H1 H2). reflexivity.
Qed.

Lemma process_url_rejects_invalid_witness :
  process_url (demo_world (s2l "abc")) demo_now demo_url demo_coll 5 10 None (new_url_chunker ∅)
  = (failure_result demo_url (s2l "Got a larger chunk overlap (10) than chunk size (5), should be smaller."),
     new_url_chunker ∅).
Proof.
  destruct (process_url_rejects_invalid (demo_world (s2l "abc")) demo_now demo_url demo_coll
              5 10 None (new_url_chunker ∅)) as [_ [_ [_ [H _]]]].
  rewrite (H ltac:(lia) ltac:(lia) ltac:(lia)). reflexivity.
Defined.

(** ** Failures become results *)

(** C6.  Whichever step of [process_url] fails (the splitter
    configuration, the fetch, the text extraction, the chunking of a
    non-blank text, or the store write), the call returns
    [failure_result url e] for the message [e] of that step, i.e.
    [success = False], [error = e], [chunks_created = 0], together with the
    state reached at that point; [process_url] itself always returns. *)
Theorem process_url_failure_result (w : World) (now url coll : str) (cs co : Z)
    (sn : option str) (st : URLChunker) :
  (forall e, r_success (failure_result url e) = false /\
             r_error (failure_result url e) = Some e /\
             r_chunks_created (failure_result url e) = 0) /\
  (forall e st1, configure cs co st = (Err e, st1) ->
     process_url w now url coll cs co sn st = (failure_result url e, st1)) /\
  (forall e st1, configure cs co st = (Ok tt, st1) -> fetch_content w url = Err e ->
     process_url w now url coll cs co sn st = (failure_result url e, st1)) /\
  (forall e st1 html, configure cs co st = (Ok tt, st1) -> fetch_content w url = Ok html ->
     extract_text w html = Err e ->
     process_url w now url coll cs co sn st = (failure_result url e, st1)) /\
  (forall e st1 html text, configure cs co st = (Ok tt, st1) -> fetch_content w url = Ok html ->
     extract_text w html = Ok text -> strip text <> [] ->
     create_chunks w (text_splitter st1) text (extract_metadata w now html url) sn = Err e ->
     process_url w now url coll cs co sn st = (failure_result url e, st1)) /\
  (forall e st1 st2 html text data, configure cs co st = (Ok tt, st1) ->
     fetch_content w url = Ok html -> extract_text w html = Ok text -> strip text <> [] ->
     create_chunks w (text_splitter st1) text (extract_metadata w now html url) sn = Ok data ->
     save_to_chroma w data coll st1 = (Err e, st2) ->
     process_url w now url coll cs co sn st = (failure_result url e, st2)).
Proof.
  unfold process_url, process_url_body, mbind, lift, mret, get_splitter.
  split; [intros e; repeat split|].
  split; [intros e st1 C; rewrite C; reflexivity|].
  split; [intros e st1 C F; rewrite C, F; reflexivity|].
  split; [intros e st1 html C F X; rewrite C, F, X; reflexivity|].
  split.
  - intros e st1 html text C F X B CC. rewrite C, F, X.
    destruct (strip text); [contradiction|]. rewrite CC. reflexivity.
  - intros e st1 st2 html text data C F X B CC S. rewrite C, F, X.
    destruct (strip text); [contradiction|]. rewrite CC, S. reflexivity.
Qed.

Lemma process_url_failure_result_witness :
  process_url offline_world demo_now demo_url demo_coll 1000 200 None (new_url_chunker ∅)
  = (failure_result demo_url (s2l "Connection refused"), new_url_chunker ∅).
Proof.
  destruct (process_url_failure_result offline_world demo_now demo_url demo_coll 1000 200 None
              (new_url_chunker ∅)) as [_ [_ [H _]]].
  apply H; reflexivity.
Defined.

(** ** Batches *)

(** C7.  [process_multiple_urls] returns one result per url, in the order
    of the urls (result [j] is about url [j]), and result [j] is what
    [process_url] gives for url [j] on the state left by the urls before
    it, whatever their outcome: a failure never stops the batch. *)
Theorem process_multiple_urls_results (w : World) (clock : nat -> str) (urls : list str)
    (coll : str) (cs co : Z) (sn : option str) (st : URLChunker) :
  let rs := fst (process_multiple_urls w clock urls coll cs co sn st) in
  length rs = length urls /\
  map r_url rs = urls /\
  forall j u, urls !! j = Some u ->
    rs !! j = Some (fst (process_url w (clock j) u coll cs co sn
                          (snd (process_multiple_urls w clock (take j urls) coll cs co sn st)))).
Proof.
  cbv zeta. unfold process_multiple_urls.
  destruct (process_urls_from_shape w clock coll cs co sn urls 0 st) as [H1 H2].
  split; [exact H1|split; [exact H2|]].
  intros j u Hj.
  assert (Hlen : length (take j urls) = j)
    by (apply length_take_le; apply lookup_lt_Some in Hj; lia).
  rewrite <- (take_drop_middle urls j u Hj) at 1.
  rewrite process_urls_from_app.
  destruct (process_urls_from_shape w clock coll cs co sn (take j urls) 0 st) as [L1 _].
  destruct (process_urls_from w clock 0 (take j urls) coll cs co sn st) as [rs1 st1].
  simpl in L1 |- *. rewrite Hlen.
  destruct (process_url w (clock j) u coll cs co sn st1) as [r st2].
  destruct (process_urls_from w clock (S j) (drop (S j) urls) coll cs co sn st2) as [rs2 st3].
  simpl. apply list_lookup_middle. lia.
Qed.

Lemma process_multiple_urls_results_witness :
  let w := offline_world in
  let urls := [demo_url; s2l "https://example.org/b"] in
  urls !! 1 = Some (s2l "https://example.org/b") /\
  fst (process_multiple_urls w (fun _ => demo_now) urls demo_coll 1000 200 None
         (new_url_chunker ∅)) !! 1
  = Some (fst (process_url w demo_now (s2l "https://example.org/b") demo_coll 1000 200 None
                 (snd (process_multiple_urls w (fun _ => demo_now) (take 1 urls) demo_coll
                         1000 200 None (new_url_chunker ∅))))).
Proof.
  cbv zeta. split; [reflexivity|].
  destruct (process_multiple_urls_results offline_world (fun _ => demo_now)
              [demo_url; s2l "https://example.org/b"] demo_coll 1000 200 None
              (new_url_chunker ∅)) as [_ [_ H]].
  apply H. reflexivity.
Defined.

(** ** Chunk ids *)

(** C8.  The ids of [create_chunks] are a function of (url, index, chunk
    text): chunk [j] gets [sha256(f"{url}_{j}_{chunk}")], the same on every
    call, whatever the other metadata (title, processed date, ...) and the
    source name are. *)
Theorem create_chunks_ids (w : World) (sp : TextSplitter) (text : str) (md : Metadata)
    (sn : option str) (url : Value) (d : ChunksData) :
  md !! k_url = Some url ->
  create_chunks w sp text md sn = Ok d ->
  split_text sp text = Ok (cd_chunks d) /\
  cd_ids d = imap (fun j c => sha256_hexdigest w (id_input url j c)) (cd_chunks d) /\
  forall md' sn', md' !! k_url = Some url ->
    exists d', create_chunks w sp text md' sn' = Ok d' /\
               cd_chunks d' = cd_chunks d /\ cd_ids d' = cd_ids d.
Proof.
  intros Hu H.
  pose proof H as H0. unfold create_chunks in H.
  destruct (split_text sp text) as [chunks|e] eqn:S; simpl in H; [|discriminate].
  destruct (assemble_ids w md sn url Hu chunks 0 d H) as [E1 E2].
  split; [rewrite E1; reflexivity|]. split; [rewrite E2, E1; reflexivity|].
  intros md' sn' Hu'.
  pose proof (create_chunks_shape w sp text md md' sn sn') as Sh.
  rewrite Hu, Hu' in Sh. specialize (Sh eq_refl). rewrite H0 in Sh.
  destruct (create_chunks w sp text md' sn') as [d'|e] eqn:C'; simpl in Sh; [|discriminate].
  injection Sh as E3 E4 _. exists d'. auto.
Qed.

Lemma create_chunks_ids_witness :
  let w := demo_world [] in
  let md := extract_metadata w demo_now (s2l "abcdefgh") demo_url in
  exists d, create_chunks w (mkSplitter 5 0 url_separators) (s2l "abcdefgh") md None = Ok d /\
  md !! k_url = Some (VStr demo_url) /\
  split_text (mkSplitter 5 0 url_separators) (s2l "abcdefgh") = Ok (cd_chunks d) /\
  cd_ids d = imap (fun j c => sha256_hexdigest w (id_input (VStr demo_url) j c)) (cd_chunks d).
Proof.
  cbv zeta.
  destruct (create_chunks (demo_world []) (mkSplitter 5 0 url_separators) (s2l "abcdefgh")
              (extract_metadata (demo_world []) demo_now (s2l "abcdefgh") demo_url) None)
    as [d|e] eqn:C.
  - exists d. split; [reflexivity|]. split; [vm_compute; reflexivity|].
    destruct (create_chunks_ids (demo_world []) (mkSplitter 5 0 url_separators)
                (s2l "abcdefgh")
                (extract_metadata (demo_world []) demo_now (s2l "abcdefgh") demo_url) None
                (VStr demo_url) d ltac:(vm_compute; reflexivity) C) as [A [B _]].
    split; assumption.
  - vm_compute in C. discriminate.
Defined.

(** X23: in [add_texts] the id of a chunk is [sha256(chunk)]:
    it depends on the chunk text alone, so two chunks with the same text,
    from one text or from two texts of the batch, get the same id. *)
Theorem add_texts_ids_content_only (w : World) (sp : TextSplitter)
    (metadatas : option (list Metadata)) (sn : option str) (texts : list str)
    (chunks ids : list str) (metas : list Metadata) :
  add_texts_records w sp metadatas sn 0 texts = Ok (chunks, ids, metas) ->
  ids = map (sha256_hexdigest w) chunks /\
  forall j k c, chunks !! j = Some c -> chunks !! k = Some c -> ids !! j = ids !! k.
Proof.
  intros H. pose proof (add_texts_records_ids w sp metadatas sn texts 0 chunks ids metas H) as E.
  split; [exact E|]. intros j k c Hj Hk. subst ids.
  rewrite !list_lookup_fmap, Hj, Hk. reflexivity.
Qed.

Lemma add_texts_ids_content_only_witness :
  let sp := mkSplitter 1000 200 default_separators in
  add_texts_records (demo_world []) sp None None 0 [s2l "Hello"; s2l "Hello"]
  = Ok ([s2l "Hello"; s2l "Hello"], [s2l "Hello"; s2l "Hello"], [∅; ∅]) /\
  [s2l "Hello"; s2l "Hello"] = map (sha256_hexdigest (demo_world [])) [s2l "Hello"; s2l "Hello"].
Proof.
  cbv zeta.
  assert (H : add_texts_records (demo_world []) (mkSplitter 1000 200 default_separators) None
                None 0 [s2l "Hello"; s2l "Hello"]
              = Ok ([s2l "Hello"; s2l "Hello"], [s2l "Hello"; s2l "Hello"], [∅; ∅]))
    by (vm_compute; reflexivity).
  split; [exact H|].
  exact (proj1 (add_texts_ids_content_only _ _ _ _ _ _ _ _ H)).
Defined.

(** ** Blank pages *)

(** C10.  When the extracted text is empty or whitespace only, [process_url]
    returns a failure result ([success = False], [chunks_created = 0])
    without touching the store: the client after the call is the client
    before it. *)
Theorem process_url_blank_text (w : World) (now url coll : str) (cs co : Z)
    (sn : option str) (st : URLChunker) (html text : str) :
  fetch_content w url = Ok html ->
  extract_text w html = Ok text ->
  strip text = [] ->
  r_success (fst (process_url w now url coll cs co sn st)) = false /\
  r_chunks_created (fst (process_url w now url coll cs co sn st)) = 0 /\
  client (snd (process_url w now url coll cs co sn st)) = client st.
Proof.
  intros F X B. pose proof (configure_client cs co st) as Hc.
  unfold process_url, process_url_body, mbind, lift, mret, get_splitter.
  destruct (configure cs co st) as [[[]|e] st1]; simpl in Hc |- *.
  - rewrite F, X, B. simpl. auto.
  - auto.
Qed.

Lemma process_url_blank_text_witness :
  let w := demo_world (s2l " ") in
  fetch_content w demo_url = Ok (s2l " ") /\
  extract_text w (s2l " ") = Ok (s2l " ") /\
  strip (s2l " ") = [] /\
  client (snd (process_url w demo_now demo_url demo_coll 1000 200 None (new_url_chunker ∅)))
  = client (new_url_chunker ∅).
Proof.
  cbv zeta. split; [reflexivity|]. split; [reflexivity|]. split; [vm_compute; reflexivity|].
  apply (process_url_blank_text (demo_world (s2l " ")) demo_now demo_url demo_coll 1000 200 None
           (new_url_chunker ∅) (s2l " ") (s2l " ")); [reflexivity|reflexivity|].
  vm_compute. reflexivity.
Defined.

(* ------------------------------------------------------------------ *)
(** * Further properties of the code *)

(** ** The splitter never raises for a non-negative overlap *)

Section Total.
Variable ts : TextSplitter.
Variable sep : str.
Hypothesis Hco : (0 <= chunk_overlap ts)%Z.

Lemma pop_loop_total (len_d : Z) : forall cur total,
  total = zlen (join sep cur) -> exists r, pop_loop ts sep len_d cur total = Ok r.
Proof.
  induction cur as [|x r IH]; intros total Ht; simpl.
  - unfold zlen in Ht; simpl in Ht. subst total. change (Z.of_nat 0) with 0%Z.
    replace ((0 >? chunk_overlap ts)%Z) with false by (symmetry; zb; lia).
    replace ((0 >? 0)%Z) with false by reflexivity. rewrite andb_false_r. simpl. eauto.
  - destruct ((total >? chunk_overlap ts)%Z
              || ((total + len_d + sep_len sep >? chunk_size ts)%Z && (total >? 0)%Z)); [|eauto].
    apply IH. rewrite Ht, join_cons_zlen. destruct r; [unfold zlen; simpl; lia | lia].
Qed.

Definition weak_inv (st : list str * list str * Z) : Prop :=
  let '(_, cur, total) := st in total = zlen (join sep cur) /\ Forall nonempty cur.

Lemma merge_step_total (st : list str * list str * Z) (d : str) :
  weak_inv st -> nonempty d -> exists st', merge_step ts sep st d = Ok st' /\ weak_inv st'.
Proof.
  destruct st as [[docs cur] total]. intros [Ht Hne] Hd. unfold merge_step.
  destruct ((total + zlen d + match cur with [] => 0 | _ => sep_len sep end
             >? chunk_size ts)%Z).
  - destruct cur as [|x r].
    + eexists; split; [reflexivity|]. unfold zlen in Ht; simpl in Ht.
      split; [rewrite join_single_zlen; lia|repeat constructor; exact Hd].
    + destruct (pop_loop_total (zlen d) (x :: r) total Ht) as [[cur' total'] P].
      rewrite P. eexists; split; [reflexivity|].
      apply pop_loop_ok in P as (Ht' & Hne' & _); [|exact Ht|exact Hne].
      split; [rewrite join_snoc_zlen; lia|].
      apply Forall_app; split; [exact Hne'|repeat constructor; exact Hd].
  - eexists; split; [reflexivity|]. split; [rewrite join_snoc_zlen; lia|].
    apply Forall_app; split; [exact Hne|repeat constructor; exact Hd].
Qed.

Lemma merge_loop_total (splits : list str) : forall st,
  weak_inv st -> Forall nonempty splits -> exists st', merge_loop ts sep st splits = Ok st'.
Proof.
  induction splits as [|d ds IH]; intros st Hi Hs; simpl; [eauto|].
  inversion Hs as [|? ? Hd Hds]; subst.
  destruct (merge_step_total st d Hi Hd) as (st1 & E & Hi1). rewrite E. simpl.
  exact (IH st1 Hi1 Hds).
Qed.

Lemma merge_splits_total (splits : list str) :
  Forall nonempty splits -> exists m, merge_splits ts sep splits = Ok m.
Proof.
  intros Hs. unfold merge_splits.
  destruct (merge_loop_total splits ([], [], 0%Z)) as [[[docs cur] total] E];
    [split; [reflexivity|constructor]|exact Hs|].
  rewrite E. eauto.
Qed.

End Total.

Lemma split_loop_total (ts : TextSplitter) (recurse : option (str -> Res (list str))) :
  (0 <= chunk_overlap ts)%Z ->
  (forall f, recurse = Some f -> forall s, exists o, f s = Ok o) ->
  forall splits final good, Forall nonempty splits -> Forall nonempty good ->
  exists out, split_loop ts recurse splits final good = Ok out.
Proof.
  intros Hco Hf. induction splits as [|s ss IH]; intros final good Hs Hg; simpl.
  - unfold flush_good. destruct good as [|g gs]; [eauto|].
    destruct (merge_splits_total ts [] Hco (g :: gs) Hg) as [m E]. rewrite E. simpl. eauto.
  - inversion Hs as [|? ? Hs1 Hss]; subst.
    destruct (zlen s <? chunk_size ts)%Z.
    + apply IH; [exact Hss|]. apply Forall_app; split; [exact Hg|repeat constructor; exact Hs1].
    + assert (F : exists final1, flush_good ts final good = Ok final1).
      { unfold flush_good. destruct good as [|g gs]; [eauto|].
        destruct (merge_splits_total ts [] Hco (g :: gs) Hg) as [m E]. rewrite E. simpl. eauto. }
      destruct F as [final1 F]. rewrite F. simpl.
      destruct recurse as [f|].
      * destruct (Hf f eq_refl s) as [sub E]. rewrite E. simpl.
        apply IH; [exact Hss|constructor].
      * apply IH; [exact Hss|constructor].
Qed.

Lemma split_text_rec_total (ts : TextSplitter) :
  (0 <= chunk_overlap ts)%Z ->
  forall seps last text, exists out, split_text_rec ts seps last text = Ok out.
Proof.
  intros Hco. induction seps as [|s rest IH]; intros last text; simpl.
  - apply split_loop_total; [exact Hco|intros f E; discriminate E| |constructor].
    apply split_with_sep_nonempty.
  - destruct s as [|c s'].
    + apply split_loop_total; [exact Hco|intros f E; discriminate E| |constructor].
      apply split_with_sep_nonempty.
    + destruct (contains (c :: s') text); [|apply IH].
      apply split_loop_total; [exact Hco| |apply split_with_sep_nonempty|constructor].
      intros f E. destruct rest; [discriminate E|]. injection E as <-. intros s0. apply IH.
Qed.

(** ** What the chunks look like *)

Lemma merge_loop_docs (ts : TextSplitter) (sep : str) (splits : list str) : forall st st',
  Forall (fun t => exists cur, join_docs sep cur = Some t) st.1.1 ->
  merge_loop ts sep st splits = Ok st' ->
  Forall (fun t => exists cur, join_docs sep cur = Some t) st'.1.1.
Proof.
  induction splits as [|d ds IH]; intros st st' Hd Hm; simpl in Hm.
  - injection Hm as <-. exact Hd.
  - destruct (merge_step ts sep st d) as [st1|e] eqn:E; simpl in Hm; [|discriminate].
    apply (IH st1); [|exact Hm].
    destruct st as [[docs cur] total]. unfold merge_step in E.
    destruct ((total + zlen d + match cur with [] => 0 | _ => sep_len sep end
               >? chunk_size ts)%Z).
    + destruct cur as [|x r]; [injection E as <-; exact Hd|].
      destruct (pop_loop ts sep (zlen d) (x :: r) total) as [[cur' total']|e]; [|discriminate].
      injection E as <-. simpl. apply Forall_app; split; [exact Hd|].
      destruct (join_docs sep (x :: r)) eqn:J; simpl; repeat constructor; eauto.
    + injection E as <-. exact Hd.
Qed.

Lemma merge_splits_docs (ts : TextSplitter) (sep : str) (splits m : list str) :
  merge_splits ts sep splits = Ok m ->
  Forall (fun t => exists cur, join_docs sep cur = Some t) m.
Proof.
  unfold merge_splits. intros H.
  destruct (merge_loop ts sep ([], [], 0%Z) splits) as [[[docs cur] total]|e] eqn:E;
    [|discriminate].
  injection H as <-. apply merge_loop_docs in E; [|constructor]. simpl in E.
  apply Forall_app; split; [exact E|].
  destruct (join_docs sep cur) eqn:J; simpl; repeat constructor; eauto.
Qed.

Lemma split_loop_forall (Q : str -> Prop) (ts : TextSplitter)
    (recurse : option (str -> Res (list str))) :
  (forall cur t, join_docs [] cur = Some t -> Q t) ->
  (forall f, recurse = Some f -> forall s o, f s = Ok o -> Forall Q o) ->
  forall splits final good out,
  Forall Q final ->
  (recurse = None -> Forall (fun s => (chunk_size ts <= zlen s)%Z -> Q s) splits) ->
  split_loop ts recurse splits final good = Ok out -> Forall Q out.
Proof.
  intros HM HS.
  assert (HF : forall final good final1, Forall Q final ->
            flush_good ts final good = Ok final1 -> Forall Q final1).
  { intros final good final1 Hf H. unfold flush_good in H. destruct good as [|g gs].
    - injection H as <-. exact Hf.
    - destruct (merge_splits ts [] (g :: gs)) as [m|e] eqn:M; simpl in H; [|discriminate].
      injection H as <-. apply Forall_app; split; [exact Hf|].
      apply merge_splits_docs in M. eapply Forall_impl; [exact M|].
      intros t [cur J]. exact (HM cur t J). }
  induction splits as [|s ss IH]; intros final good out Hf HR H; simpl in H.
  - exact (HF _ _ _ Hf H).
  - assert (HR' : recurse = None -> Forall (fun s => (chunk_size ts <= zlen s)%Z -> Q s) ss).
    { intros E. specialize (HR E). inversion HR; assumption. }
    destruct (zlen s <? chunk_size ts)%Z eqn:E.
    + exact (IH _ _ _ Hf HR' H).
    + destruct (flush_good ts final good) as [final1|e] eqn:F; simpl in H; [|discriminate].
      pose proof (HF _ _ _ Hf F) as Hf1.
      destruct recurse as [f|].
      * destruct (f s) as [sub|e] eqn:Fs; simpl in H; [|discriminate].
        refine (IH _ _ _ _ HR' H). apply Forall_app; split; [exact Hf1|].
        exact (HS f eq_refl s sub Fs).
      * refine (IH _ _ _ _ HR' H). apply Forall_app; split; [exact Hf1|].
        specialize (HR eq_refl). inversion HR as [|? ? Hs]; subst.
        constructor; [|constructor]. apply Hs. zb. lia.
Qed.

Lemma split_text_rec_nonempty (ts : TextSplitter) : forall seps last text out,
  split_text_rec ts seps last text = Ok out -> Forall nonempty out.
Proof.
  assert (HM : forall cur t, join_docs [] cur = Some t -> nonempty t).
  { intros cur t. unfold join_docs. destruct (strip (join [] cur)); [discriminate|].
    intros H; injection H as <-. discriminate. }
  assert (HR : forall sep text, Forall (fun s => (chunk_size ts <= zlen s)%Z -> nonempty s)
                                  (split_with_sep sep text)).
  { intros sep text. eapply Forall_impl; [apply split_with_sep_nonempty|]. auto. }
  induction seps as [|s rest IH]; intros last text out H; simpl in H.
  - exact (split_loop_forall nonempty ts None HM (fun f E => ltac:(discriminate E))
             _ _ _ _ (List.Forall_nil _) (fun _ => HR _ _) H).
  - destruct s as [|c s'].
    + exact (split_loop_forall nonempty ts None HM (fun f E => ltac:(discriminate E))
               _ _ _ _ (List.Forall_nil _) (fun _ => HR _ _) H).
    + destruct (contains (c :: s') text); [|exact (IH _ _ _ H)].
      destruct rest as [|r0 rs].
      * exact (split_loop_forall nonempty ts None HM (fun f E => ltac:(discriminate E))
                 _ _ _ _ (List.Forall_nil _) (fun _ => HR _ _) H).
      * refine (split_loop_forall nonempty ts (Some (split_text_rec ts (r0 :: rs) last)) HM _
                  _ _ _ _ (List.Forall_nil _) (fun E => ltac:(discriminate E)) H).
        intros f E s0 o Ho. injection E as <-. exact (IH _ _ _ Ho).
Qed.

Lemma lstrip_idem (s : str) : lstrip (lstrip s) = lstrip s.
Proof.
  induction s as [|c r IH]; simpl; [reflexivity|].
  destruct (is_space c) eqn:E; [exact IH|]. simpl. rewrite E. reflexivity.
Qed.

Lemma lstrip_snoc (l : str) (c : N) :
  is_space c = false -> exists m, lstrip (l ++ [c]) = m ++ [c].
Proof.
  intros Hc. induction l as [|x l IH]; simpl.
  - rewrite Hc. exists []. reflexivity.
  - destruct (is_space x); [exact IH|]. exists (x :: l). reflexivity.
Qed.

Lemma lstrip_head (s r : str) (c : N) : lstrip s = c :: r -> is_space c = false.
Proof.
  induction s as [|x s IH]; simpl; [discriminate|].
  destruct (is_space x) eqn:E; [exact IH|]. intros H; injection H as <- _. exact E.
Qed.

Lemma strip_idem (s : str) : strip (strip s) = strip s.
Proof.
  unfold strip.
  assert (H : lstrip (rev (lstrip (rev (lstrip s)))) = rev (lstrip (rev (lstrip s)))).
  { destruct (lstrip s) as [|c r] eqn:E; [reflexivity|].
    pose proof (lstrip_head _ _ _ E) as Hc.
    simpl. destruct (lstrip_snoc (rev r) c Hc) as [m ->].
    rewrite rev_app_distr. simpl. rewrite Hc. reflexivity. }
  rewrite H, rev_involutive, lstrip_idem. reflexivity.
Qed.

Lemma split_text_rec_stripped (ts : TextSplitter) : (2 <= chunk_size ts)%Z ->
  forall seps last text out, In [] seps ->
  split_text_rec ts seps last text = Ok out -> Forall (fun c => strip c = c) out.
Proof.
  intros Hcs.
  assert (HM : forall cur t, join_docs [] cur = Some t -> strip t = t).
  { intros cur t. unfold join_docs. destruct (strip (join [] cur)) eqn:E; [discriminate|].
    intros H; injection H as <-. rewrite <- E. apply strip_idem. }
  assert (HR : forall text, Forall (fun s => (chunk_size ts <= zlen s)%Z -> strip s = s)
                              (split_with_sep [] text)).
  { intros text. eapply Forall_impl; [apply split_with_sep_chars|].
    intros s Hl Hz. unfold zlen in Hz. rewrite Hl in Hz. lia. }
  induction seps as [|s rest IH]; intros last text out Hin H; [destruct Hin|].
  simpl in H. destruct s as [|c s'].
  - exact (split_loop_forall _ ts None HM (fun f E => ltac:(discriminate E))
             _ _ _ _ (List.Forall_nil _) (fun _ => HR _) H).
  - assert (Hin' : In [] rest) by (destruct Hin as [E|E]; [discriminate E|exact E]).
    destruct (contains (c :: s') text); [|exact (IH _ _ _ Hin' H)].
    destruct rest as [|r0 rs]; [destruct Hin'|].
    refine (split_loop_forall _ ts (Some (split_text_rec ts (r0 :: rs) last)) HM _
              _ _ _ _ (List.Forall_nil _) (fun E => ltac:(discriminate E)) H).
    intros f E s0 o Ho. injection E as <-. exact (IH _ _ _ Hin' Ho).
Qed.

(** X1: non-negative overlap, non-empty separators: [split_text] never raises. *)
Theorem split_text_total (ts : TextSplitter) (text : str) :
  (0 <= chunk_overlap ts)%Z -> separators ts <> [] ->
  exists chunks, split_text ts text = Ok chunks.
Proof.
  intros Hco Hs. unfold split_text. destruct (separators ts) as [|s rest]; [congruence|].
  apply split_text_rec_total. exact Hco.
Qed.

Lemma split_text_total_witness :
  (0 <= chunk_overlap (mkSplitter 5 0 url_separators))%Z /\
  separators (mkSplitter 5 0 url_separators) <> [] /\
  exists chunks, split_text (mkSplitter 5 0 url_separators) (s2l "abcdefgh") = Ok chunks.
Proof.
  split; [simpl; lia|]. split; [discriminate|].
  apply split_text_total; [simpl; lia|discriminate].
Defined.

(** X2: [split_text] never returns an empty chunk. *)
Theorem split_text_nonempty (ts : TextSplitter) (text : str) (chunks : list str) :
  split_text ts text = Ok chunks -> Forall (fun c => c <> []) chunks.
Proof.
  unfold split_text. destruct (separators ts); [discriminate|].
  apply split_text_rec_nonempty.
Qed.

Lemma split_text_nonempty_witness :
  split_text (mkSplitter 5 0 url_separators) (s2l "abcdefgh") = Ok [s2l "abcde"; s2l "fgh"] /\
  Forall (fun c => c <> []) [s2l "abcde"; s2l "fgh"].
Proof.
  assert (H : split_text (mkSplitter 5 0 url_separators) (s2l "abcdefgh")
              = Ok [s2l "abcde"; s2l "fgh"]) by (vm_compute; reflexivity).
  split; [exact H|]. exact (split_text_nonempty _ _ _ H).
Defined.

(** X3: with the empty separator among the separators and [chunk_size >= 2], every chunk
    of [split_text] has nothing to strip at either end. *)
Theorem split_text_stripped (ts : TextSplitter) (text : str) (chunks : list str) :
  (2 <= chunk_size ts)%Z -> In [] (separators ts) ->
  split_text ts text = Ok chunks -> Forall (fun c => strip c = c) chunks.
Proof.
  intros Hcs Hin. unfold split_text. destruct (separators ts) as [|s rest]; [destruct Hin|].
  apply split_text_rec_stripped; assumption.
Qed.

Lemma split_text_stripped_witness :
  (2 <= chunk_size (mkSplitter 5 0 url_separators))%Z /\
  In [] (separators (mkSplitter 5 0 url_separators)) /\
  split_text (mkSplitter 5 0 url_separators) (s2l "ab cd ef gh") = Ok [s2l "ab cd"; s2l "ef"; s2l "gh"] /\
  Forall (fun c => strip c = c) [s2l "ab cd"; s2l "ef"; s2l "gh"].
Proof.
  assert (H1 : (2 <= chunk_size (mkSplitter 5 0 url_separators))%Z) by (simpl; lia).
  assert (H2 : In [] (separators (mkSplitter 5 0 url_separators))) by (vm_compute; tauto).
  assert (H : split_text (mkSplitter 5 0 url_separators) (s2l "ab cd ef gh")
              = Ok [s2l "ab cd"; s2l "ef"; s2l "gh"]) by (vm_compute; reflexivity).
  split; [exact H1|]. split; [exact H2|]. split; [exact H|].
  exact (split_text_stripped _ _ _ H1 H2 H).
Defined.

(** ** [WebContentExtractor.clean_text] *)


Lemma is_prefix_length (f s : str) : is_prefix f s = true -> length f <= length s.
Proof.
  revert s. induction f as [|x f IH]; intros [|y s]; simpl; intros H; try discriminate;
    [lia|lia|].
  apply andb_prop in H as [_ H]. apply IH in H. lia.
Qed.

Lemma contains_length (f s : str) : contains f s = true -> length f <= length s.
Proof.
  induction s as [|c s IH]; simpl; intros H.
  - rewrite orb_false_r in H. apply is_prefix_length in H. exact H.
  - apply orb_prop in H as [H|H]; [apply is_prefix_length in H; exact H|apply IH in H; lia].
Qed.

Lemma is_prefix_app (f a b : str) : is_prefix f a = true -> is_prefix f (a ++ b) = true.
Proof.
  revert a. induction f as [|x f IH]; intros [|y a]; simpl; intros H; try discriminate;
    try reflexivity.
  apply andb_prop in H as [H1 H2]. rewrite H1, (IH a H2). reflexivity.
Qed.

Lemma contains_app_l (f a b : str) : contains f a = true -> contains f (a ++ b) = true.
Proof.
  induction a as [|c a IH]; simpl; intros H.
  - rewrite orb_false_r in H. destruct f; [|discriminate].
    destruct b; reflexivity.
  - apply orb_prop in H as [H|H].
    + pose proof (is_prefix_app _ _ b H) as H'. simpl in H'. rewrite H'. reflexivity.
    + rewrite (IH H), orb_true_r. reflexivity.
Qed.

Lemma contains_app_r (f a b : str) : contains f b = true -> contains f (a ++ b) = true.
Proof.
  induction a as [|c a IH]; simpl; intros H; [exact H|]. rewrite (IH H), orb_true_r.
  reflexivity.
Qed.

Lemma contains_cons (f : str) (c : N) (s : str) : contains f s = true -> contains f (c :: s) = true.
Proof. intros H. exact (contains_app_r f [c] s H). Qed.


Lemma is_prefix_contains (f s : str) : is_prefix f s = true -> contains f s = true.
Proof. intros H. destruct s; simpl; rewrite H; reflexivity. Qed.

Lemma is_prefix_repeat (a : N) : forall n k, n <= k -> is_prefix (repeat a n) (repeat a k) = true.
Proof.
  induction n as [|n IH]; intros [|k] H; simpl; try reflexivity; [lia|].
  rewrite N.eqb_refl. apply IH. lia.
Qed.

Lemma repeat_snoc (a : N) (k : nat) : repeat a k ++ [a] = a :: repeat a k.
Proof. induction k as [|k IH]; simpl; [reflexivity|]. rewrite IH. reflexivity. Qed.

Lemma run_bound (a : N) (n k : nat) (s : str) :
  contains (repeat a (S n)) (repeat a k ++ s) = false -> k <= n.
Proof.
  intros H. destruct (Nat.le_gt_cases k n) as [?|Hk]; [assumption|].
  rewrite (contains_app_l _ _ s (is_prefix_contains _ _ (is_prefix_repeat a (S n) k Hk))) in H.
  discriminate.
Qed.

Lemma in_lstrip (x : N) (s : str) : In x (lstrip s) -> In x s.
Proof.
  induction s as [|c r IH]; simpl; [auto|]. destruct (is_space c); simpl; auto.
Qed.

Lemma in_strip (x : N) (s : str) : In x (strip s) -> In x s.
Proof.
  unfold strip. intros H. apply in_rev, in_lstrip, in_rev, in_lstrip in H. exact H.
Qed.

Lemma lstrip_suffix (s : str) : exists pre, s = pre ++ lstrip s.
Proof.
  induction s as [|c r [pre IH]]; simpl; [exists []; reflexivity|].
  destruct (is_space c); [exists (c :: pre); simpl; f_equal; exact IH|exists []; reflexivity].
Qed.

Lemma contains_strip (f s : str) : contains f (strip s) = true -> contains f s = true.
Proof.
  unfold strip. intros H.
  destruct (lstrip_suffix (rev (lstrip s))) as [pre E].
  assert (E' : lstrip s = rev (lstrip (rev (lstrip s))) ++ rev pre).
  { rewrite <- (rev_involutive (lstrip s)) at 1. rewrite E at 1. apply rev_app_distr. }
  destruct (lstrip_suffix s) as [pre' E2]. rewrite E2, E'.
  apply contains_app_r, contains_app_l, H.
Qed.

Section Runs.
Variable p : N -> bool.
Variable min : nat.
Variable repl : str.
Hypothesis Hmin : 1 <= min.

Lemma flush_run_nil : flush_run min repl [] = [].
Proof. unfold flush_run. simpl. destruct min; [lia|reflexivity]. Qed.

(** Characters of the output. *)
Lemma sub_runs_in (x : N) : forall s run,
  In x (sub_runs p min repl run s) -> In x repl \/ In x run \/ In x s.
Proof.
  induction s as [|c r IH]; intros run H; simpl in H.
  - unfold flush_run in H. destruct (min <=? length run); [auto|].
    right; left. apply in_rev in H. exact H.
  - destruct (p c).
    + destruct (IH _ H) as [?|[[<-|?]|?]]; simpl; auto.
    + apply in_app_or in H as [H|[<-|H]].
      * unfold flush_run in H. destruct (min <=? length run); [auto|].
        right; left. apply in_rev in H. exact H.
      * simpl; auto.
      * destruct (IH _ H) as [?|[[]|?]]; simpl; auto.
Qed.

Lemma sub_runs_in_min1 (x : N) : min = 1 -> forall s run,
  In x (sub_runs p min repl run s) -> In x repl \/ (In x s /\ p x = false).
Proof.
  intros H1. induction s as [|c r IH]; intros run H; simpl in H.
  - unfold flush_run in H. subst min. destruct run; simpl in H; [destruct H|auto].
  - destruct (p c) eqn:E.
    + destruct (IH _ H) as [?|[? ?]]; simpl; auto.
    + apply in_app_or in H as [H|[<-|H]].
      * unfold flush_run in H. subst min. destruct run; simpl in H; [destruct H|auto].
      * simpl; auto.
      * destruct (IH _ H) as [?|[? ?]]; simpl; auto.
Qed.

Lemma sub_runs_length : length repl <= min -> forall s run,
  length (sub_runs p min repl run s) <= length run + length s.
Proof.
  intros Hr. induction s as [|c r IH]; intros run; simpl.
  - unfold flush_run. destruct (min <=? length run) eqn:E;
      [apply Nat.leb_le in E; lia|rewrite length_rev; lia].
  - destruct (p c).
    + specialize (IH (c :: run)). simpl in IH. lia.
    + rewrite length_app. simpl. specialize (IH []). simpl in IH.
      unfold flush_run. destruct (min <=? length run) eqn:E;
        [apply Nat.leb_le in E; lia|rewrite length_rev; lia].
Qed.

Lemma is_prefix_split (f a b : str) (c : N) :
  p c = false -> Forall (fun x => p x = true) f ->
  is_prefix f (a ++ c :: b) = true -> is_prefix f a = true.
Proof.
  intros Hc Hf. revert f Hf. induction a as [|y a IH]; intros [|x f] Hf H; simpl in *;
    try reflexivity.
  - apply andb_prop in H as [H _]. apply N.eqb_eq in H. subst x.
    inversion Hf; congruence.
  - apply andb_prop in H as [H1 H2]. rewrite H1. inversion Hf; subst. simpl. apply IH; auto.
Qed.

Lemma contains_split (f a b : str) (c : N) :
  p c = false -> Forall (fun x => p x = true) f ->
  contains f (a ++ c :: b) = true -> contains f a = true \/ contains f b = true.
Proof.
  intros Hc Hf. induction a as [|y a IH]; simpl; intros H.
  - apply orb_prop in H as [H|H]; [|auto].
    left. destruct f as [|x f]; [reflexivity|]. simpl in H.
    apply andb_prop in H as [H _]. apply N.eqb_eq in H. subst x. inversion Hf; congruence.
  - apply orb_prop in H as [H|H].
    + left. apply (is_prefix_split f (y :: a) b c Hc Hf) in H. rewrite H. reflexivity.
    + destruct (IH H) as [H'|H']; [left; rewrite H', orb_true_r; reflexivity|auto].
Qed.

(** No run of the class longer than what one replacement leaves. *)
Lemma sub_runs_no_long (f : str) :
  Forall (fun x => p x = true) f -> Nat.max (length repl) (min - 1) < length f ->
  forall s run, contains f (sub_runs p min repl run s) = false.
Proof.
  intros Hf Hl.
  assert (HF : forall run, contains f (flush_run min repl run) = false).
  { intros run. destruct (contains f (flush_run min repl run)) eqn:E; [|reflexivity].
    apply contains_length in E. unfold flush_run in E.
    destruct (min <=? length run) eqn:M; [lia|]. rewrite length_rev in E.
    apply Nat.leb_gt in M. lia. }
  induction s as [|c r IH]; intros run; simpl; [apply HF|].
  destruct (p c) eqn:E; [apply IH|].
  destruct (contains f (flush_run min repl run ++ c :: sub_runs p min repl [] r)) eqn:C;
    [|reflexivity].
  destruct (contains_split f _ _ c E Hf C) as [C'|C']; [rewrite HF in C'|rewrite IH in C'];
    discriminate.
Qed.


(** A string without characters of the class is left as it is. *)
Lemma sub_runs_id_none : forall s, Forall (fun x => p x = false) s ->
  sub_runs p min repl [] s = s.
Proof.
  induction s as [|c r IH]; intros H; simpl; [apply flush_run_nil|].
  inversion H; subst. rewrite H2, flush_run_nil, IH; auto.
Qed.

(** Runs of one character [a] of the class, each at most [n] long, on
    which [flush_run] is the identity, are left as they are. *)
Lemma sub_runs_id_runs (a : N) (n : nat) :
  (forall k, k <= n -> flush_run min repl (repeat a k) = repeat a k) ->
  forall s k, (forall x, In x s -> p x = true -> x = a) ->
  contains (repeat a (S n)) (repeat a k ++ s) = false ->
  sub_runs p min repl (repeat a k) s = repeat a k ++ s.
Proof.
  intros HF. induction s as [|c r IH]; intros k Ha Hc; simpl.
  - rewrite app_nil_r. apply HF. exact (run_bound a n k [] Hc).
  - destruct (p c) eqn:E.
    + assert (c = a) as -> by (apply Ha; simpl; auto).
      change (a :: repeat a k) with (repeat a (S k)).
      assert (Eq : repeat a k ++ a :: r = repeat a (S k) ++ r)
        by (change (a :: r) with ([a] ++ r); rewrite app_assoc, repeat_snoc; reflexivity).
      rewrite Eq in *. apply IH; [|exact Hc].
      intros x Hx. apply Ha. simpl; auto.
    + rewrite (HF k (run_bound a n k _ Hc)).
      change [] with (repeat a 0). rewrite IH; [reflexivity| |].
      * intros x Hx. apply Ha. simpl; auto.
      * change (repeat a 0 ++ r) with r.
        destruct (contains (repeat a (S n)) r) eqn:C; [|reflexivity].
        rewrite <- Hc. symmetry. change (c :: r) with ([c] ++ r).
        rewrite app_assoc. apply contains_app_r. exact C.
Qed.

Hypothesis Hrepl : Forall (fun x => p x = true) repl.
Hypothesis Hrepl_ne : repl <> [].

Lemma flush_run_class (run : str) : Forall (fun x => p x = true) run ->
  Forall (fun x => p x = true) (flush_run min repl run).
Proof.
  intros H. unfold flush_run. destruct (min <=? length run); [exact Hrepl|].
  apply Forall_rev. exact H.
Qed.

Lemma flush_run_ne (run : str) : run <> [] -> flush_run min repl run <> [].
Proof.
  intros H. unfold flush_run. destruct (min <=? length run); [exact Hrepl_ne|].
  intros E. apply H. destruct run; [reflexivity|]. simpl in E. destruct (rev run); discriminate.
Qed.

Lemma is_prefix_class (f a b : str) :
  Forall (fun x => p x = false) f -> a <> [] -> Forall (fun x => p x = true) a ->
  is_prefix f (a ++ b) = true -> f = [].
Proof.
  intros Hf Ha Hc H. destruct f as [|x f]; [reflexivity|]. destruct a as [|y a]; [congruence|].
  simpl in H. apply andb_prop in H as [H _]. apply N.eqb_eq in H. subst y.
  inversion Hf; inversion Hc; congruence.
Qed.

Lemma contains_class (f a b : str) :
  Forall (fun x => p x = false) f -> f <> [] -> Forall (fun x => p x = true) a ->
  contains f (a ++ b) = true -> contains f b = true.
Proof.
  intros Hf Hne. induction a as [|y a IH]; intros Ha H; [exact H|].
  inversion Ha; subst. simpl in H. apply orb_prop in H as [H|H].
  - exfalso. apply Hne. apply (is_prefix_class f (y :: a) b Hf ltac:(discriminate)); auto.
  - apply IH; auto.
Qed.

Lemma sub_runs_prefix : forall s f run,
  Forall (fun x => p x = false) f -> Forall (fun x => p x = true) run ->
  is_prefix f (sub_runs p min repl run s) = true ->
  f = [] \/ (run = [] /\ is_prefix f s = true).
Proof.
  induction s as [|c r IH]; intros f run Hf Hr H; simpl in H.
  - destruct run as [|y run']; [rewrite flush_run_nil in H; destruct f; [left; reflexivity|discriminate H]|].
    left. apply (is_prefix_class f _ [] Hf (flush_run_ne (y :: run') ltac:(discriminate))
                  (flush_run_class _ Hr)). rewrite app_nil_r. exact H.
  - destruct (p c) eqn:E.
    + destruct (IH f (c :: run) Hf ltac:(constructor; auto) H) as [?|[? _]]; [auto|discriminate].
    + destruct run as [|y run'].
      * rewrite flush_run_nil in H. simpl in H. destruct f as [|x f]; [auto|].
        simpl in H. apply andb_prop in H as [Hx H]. apply N.eqb_eq in Hx. subst x.
        inversion Hf; subst.
        destruct (IH f [] ltac:(assumption) (List.Forall_nil _) H) as [->|[_ H']]; right; split; auto; simpl;
          rewrite N.eqb_refl; simpl; [destruct r; reflexivity|exact H'].
      * left. apply (is_prefix_class f _ _ Hf (flush_run_ne (y :: run') ltac:(discriminate))
                      (flush_run_class _ Hr) H).
Qed.

(** A string outside the class occurs in the output only if it occurs in
    the input. *)
Lemma sub_runs_keeps (f : str) :
  Forall (fun x => p x = false) f -> f <> [] ->
  forall s run, Forall (fun x => p x = true) run ->
  contains f (sub_runs p min repl run s) = true -> contains f s = true.
Proof.
  intros Hf Hne. induction s as [|c r IH]; intros run Hr H; simpl in H.
  - exfalso. pose proof (contains_class f _ [] Hf Hne (flush_run_class _ Hr)) as C.
    rewrite app_nil_r in C. specialize (C H). simpl in C.
    destruct f; [congruence|discriminate].
  - destruct (p c) eqn:E.
    + apply contains_cons. apply (IH (c :: run)); [constructor; auto|exact H].
    + apply (contains_class f _ _ Hf Hne (flush_run_class _ Hr)) in H.
      simpl in H. apply orb_prop in H as [H|H].
      * destruct f as [|x f]; [congruence|]. simpl in H.
        apply andb_prop in H as [Hx H]. apply N.eqb_eq in Hx. subst x. inversion Hf; subst.
        simpl. rewrite N.eqb_refl.
        destruct (sub_runs_prefix r f [] ltac:(assumption) (List.Forall_nil _) H)
          as [->|[_ H']]; simpl; [destruct r; reflexivity|rewrite H'; reflexivity].
      * apply contains_cons. exact (IH [] (List.Forall_nil _) H).
Qed.

End Runs.

Lemma cr_lf_tab_space (x : N) : is_cr_lf_tab x = true -> is_space x = true.
Proof.
  unfold is_cr_lf_tab. intros H.
  repeat (apply orb_prop in H as [H|H]); apply N.eqb_eq in H; subst; reflexivity.
Qed.

Lemma sub_runs_spaces (p : N -> bool) (min : nat) (repl s : str) :
  (forall x, In x repl -> is_space x = false) ->
  (forall x, In x s -> is_space x = true -> x = 32%N) ->
  forall x, In x (sub_runs p min repl [] s) -> is_space x = true -> x = 32%N.
Proof.
  intros Hr Hs x Hx Hsp. destruct (sub_runs_in p min repl x s [] Hx) as [H|[[]|H]].
  - rewrite (Hr x H) in Hsp. discriminate.
  - exact (Hs x H Hsp).
Qed.

Lemma sub_runs_keeps_false (p : N -> bool) (min : nat) (repl f s : str) :
  1 <= min -> Forall (fun x => p x = true) repl -> repl <> [] ->
  Forall (fun x => p x = false) f -> f <> [] ->
  contains f s = false -> contains f (sub_runs p min repl [] s) = false.
Proof.
  intros Hm Hr Hn Hf Hfn Hs. destruct (contains f (sub_runs p min repl [] s)) eqn:E; [|reflexivity].
  rewrite (sub_runs_keeps p min repl Hm Hr Hn f Hf Hfn s [] (List.Forall_nil _) E) in Hs.
  discriminate.
Qed.

Ltac cls := repeat constructor; try discriminate.

(** The normal form [clean_text] produces. *)
Lemma clean_text_form (text : str) :
  let o := clean_text text in
  (forall x, In x o -> is_space x = true -> x = 32%N) /\
  contains [32; 32]%N o = false /\ contains [46; 46; 46; 46]%N o = false /\
  contains [33; 33]%N o = false /\ contains [63; 63]%N o = false /\
  strip o = o /\ length o <= length text.
Proof.
  destruct text as [|c0 r0]; [repeat split; simpl; auto; intros ? []|].
  cbv zeta. unfold clean_text, re_sub_runs.
  set (t := c0 :: r0). clearbody t.
  set (t1 := sub_runs is_space 1 [32%N] [] t).
  set (t2 := sub_runs (N.eqb 46) 3 [46; 46; 46]%N [] t1).
  set (t3 := sub_runs (N.eqb 33) 2 [33%N] [] t2).
  set (t4 := sub_runs (N.eqb 63) 2 [63%N] [] t3).
  assert (A1 : forall x, In x t1 -> is_space x = true -> x = 32%N).
  { intros x Hx Hs. destruct (sub_runs_in_min1 is_space 1 [32%N] (le_n 1) x eq_refl t [] Hx)
      as [[<-|[]]|[_ H]]; [reflexivity|congruence]. }
  assert (A4 : forall x, In x t4 -> is_space x = true -> x = 32%N).
  { unfold t4, t3, t2.
    do 3 (apply sub_runs_spaces;
      [intros x Hx; repeat (destruct Hx as [<-|Hx]; [reflexivity|]); destruct Hx|]).
    exact A1. }
  assert (B1 : contains [32; 32]%N t1 = false)
    by (apply sub_runs_no_long; [lia|cls|simpl; lia]).
  assert (B2 : contains [46; 46; 46; 46]%N t2 = false)
    by (apply sub_runs_no_long; [lia|cls|simpl; lia]).
  assert (B3 : contains [33; 33]%N t3 = false)
    by (apply sub_runs_no_long; [lia|cls|simpl; lia]).
  assert (B4 : contains [63; 63]%N t4 = false)
    by (apply sub_runs_no_long; [lia|cls|simpl; lia]).
  assert (K : forall (q : N -> bool) (m : nat) (a : N) (f s : str), 1 <= m -> q a = true ->
            Forall (fun x => q x = false) f -> f <> [] ->
            contains f s = false -> contains f (sub_runs q m [a] [] s) = false).
  { intros q m a f s Hm Ha Hf Hn Hs. apply sub_runs_keeps_false; auto; try discriminate. }
  assert (K3 : forall f s, Forall (fun x => (46 =? x)%N = false) f -> f <> [] ->
            contains f s = false -> contains f (sub_runs (N.eqb 46) 3 [46; 46; 46]%N [] s) = false).
  { intros f s Hf Hn Hs. apply sub_runs_keeps_false; auto; try discriminate; repeat constructor. }
  assert (S1 : contains [32; 32]%N t4 = false).
  { apply K; [lia|reflexivity|repeat constructor|discriminate|].
    apply K; [lia|reflexivity|repeat constructor|discriminate|].
    apply K3; [repeat constructor|discriminate|exact B1]. }
  assert (S2 : contains [46; 46; 46; 46]%N t4 = false).
  { apply K; [lia|reflexivity|repeat constructor|discriminate|].
    apply K; [lia|reflexivity|repeat constructor|discriminate|exact B2]. }
  assert (S3 : contains [33; 33]%N t4 = false).
  { apply K; [lia|reflexivity|repeat constructor|discriminate|exact B3]. }
  assert (E5 : sub_runs is_cr_lf_tab 1 [32%N] [] t4 = t4).
  { apply sub_runs_id_none; [lia|]. apply List.Forall_forall. intros x Hx.
    destruct (is_cr_lf_tab x) eqn:E; [|reflexivity].
    pose proof (A4 x Hx (cr_lf_tab_space x E)). subst x. discriminate. }
  rewrite E5.
  assert (KS : forall f, contains f t4 = false -> contains f (strip t4) = false).
  { intros f H. destruct (contains f (strip t4)) eqn:E; [|reflexivity].
    rewrite (contains_strip f t4 E) in H. discriminate. }
  repeat split; try (apply KS; assumption).
  - intros x Hx. apply A4. apply in_strip. exact Hx.
  - apply strip_idem.
  - pose proof (strip_length t4).
    pose proof (sub_runs_length is_space 1 [32%N] (le_n 1) (le_n 1) t [] : length t1 <= 0 + length t).
    pose proof (sub_runs_length (N.eqb 46) 3 [46; 46; 46]%N ltac:(lia) ltac:(simpl; lia) t1 []
                : length t2 <= 0 + length t1).
    pose proof (sub_runs_length (N.eqb 33) 2 [33%N] ltac:(lia) ltac:(simpl; lia) t2 []
                : length t3 <= 0 + length t2).
    pose proof (sub_runs_length (N.eqb 63) 2 [63%N] ltac:(lia) ltac:(simpl; lia) t3 []
                : length t4 <= 0 + length t3).
    clearbody t1 t2 t3 t4. lia.
Qed.

(** X4: what [clean_text] returns: every whitespace character is a plain
    space, there are no two spaces in a row, no four dots, no [!!] and no
    [??], nothing to strip at either end, and it is never longer than the
    input. *)
Theorem clean_text_normal (text : str) :
  let o := clean_text text in
  (forall x, In x o -> is_space x = true -> x = 32%N) /\
  contains [32; 32]%N o = false /\ contains [46; 46; 46; 46]%N o = false /\
  contains [33; 33]%N o = false /\ contains [63; 63]%N o = false /\
  strip o = o /\ length o <= length text.
Proof. exact (clean_text_form text). Qed.

(** X5: cleaning twice is cleaning once. *)
Theorem clean_text_idem (text : str) : clean_text (clean_text text) = clean_text text.
Proof.
  destruct (clean_text_form text) as (A & B1 & B2 & B3 & B4 & Hs & _).
  set (o := clean_text text) in *. clearbody o.
  destruct o as [|c r] eqn:Eo; [reflexivity|]. rewrite <- Eo in *.
  assert (E : clean_text o = strip (sub_runs is_cr_lf_tab 1 [32%N] []
                (sub_runs (N.eqb 63) 2 [63%N] [] (sub_runs (N.eqb 33) 2 [33%N] []
                (sub_runs (N.eqb 46) 3 [46; 46; 46]%N [] (sub_runs is_space 1 [32%N] [] o))))))
    by (rewrite Eo; reflexivity).
  rewrite E.
  assert (HF : forall (m : nat) (a : N) (n : nat) (repl : str),
            (forall k, k <= n -> flush_run m repl (repeat a k) = repeat a k) ->
            (forall x, In x o -> N.eqb a x = true -> x = a) ->
            contains (repeat a (S n)) o = false ->
            1 <= m -> sub_runs (N.eqb a) m repl [] o = o).
  { intros m a n repl Hk Ha Hc Hm. exact (sub_runs_id_runs (N.eqb a) m repl a n Hk o 0 Ha Hc). }
  assert (Ha : forall a x, In x o -> N.eqb a x = true -> x = a)
    by (intros a x _ H; apply N.eqb_eq in H; symmetry; exact H).
  rewrite (sub_runs_id_runs is_space 1 [32%N] 32%N 1
             ltac:(intros [|[|k]] Hk; [reflexivity|reflexivity|lia]) o 0 A B1
           : sub_runs is_space 1 [32%N] [] o = o).
  rewrite (HF 3 46%N 3 [46; 46; 46]%N ltac:(intros [|[|[|[|k]]]] Hk; try reflexivity; lia) (Ha 46%N) B2 ltac:(lia)).
  rewrite (HF 2 33%N 1 [33%N] ltac:(intros [|[|k]] Hk; [reflexivity|reflexivity|lia]) (Ha 33%N) B3 ltac:(lia)).
  rewrite (HF 2 63%N 1 [63%N] ltac:(intros [|[|k]] Hk; [reflexivity|reflexivity|lia]) (Ha 63%N) B4 ltac:(lia)).
  rewrite sub_runs_id_none; [exact Hs|lia|].
  apply List.Forall_forall. intros x Hx. destruct (is_cr_lf_tab x) eqn:Ex; [|reflexivity].
  pose proof (A x Hx (cr_lf_tab_space x Ex)). subst x. discriminate.
Qed.

(** ** Chunk metadata, the store and the pipeline *)


Lemma assemble_spec (w : World) (md : Metadata) (sn : option str) :
  forall chunks i d, assemble w md sn i chunks = Ok d ->
  cd_chunks d = chunks /\
  cd_metadatas d = imap (fun j c => chunk_metadata md (i + j) c sn) chunks.
Proof.
  induction chunks as [|c cs IH]; intros i d H; simpl in H.
  - injection H as <-. split; reflexivity.
  - destruct (md !! k_url) as [url|] eqn:Hu; [|discriminate].
    destruct (assemble w md sn (S i) cs) as [rest|e] eqn:R; simpl in H; [|discriminate].
    injection H as <-. destruct (IH (S i) rest R) as (E1 & E2). simpl.
    rewrite E1, E2, ?Nat.add_0_r. split; [reflexivity|].
    f_equal. apply imap_ext. intros j x _. simpl. f_equal. lia.
Qed.


Lemma chunk_metadata_keys (md : Metadata) (j : nat) (c : str) (sn : option str) :
  let m := chunk_metadata md j c sn in
  m !! k_chunk_index = Some (VInt (Z.of_nat j)) /\
  m !! k_chunk_size = Some (VInt (zlen c)) /\
  m !! k_source = (match truthy_name sn with Some s => Some (VStr s) | None => md !! k_source end) /\
  forall k, k <> k_chunk_index -> k <> k_chunk_size -> k <> k_source -> m !! k = md !! k.
Proof.
  cbv zeta. unfold chunk_metadata.
  assert (N1 : k_chunk_index <> k_chunk_size) by (vm_compute; congruence).
  assert (N2 : k_chunk_index <> k_source) by (vm_compute; congruence).
  assert (N3 : k_chunk_size <> k_source) by (vm_compute; congruence).
  destruct (truthy_name sn) as [s|].
  - rewrite lookup_insert_ne, lookup_insert_ne, lookup_insert_eq by congruence.
    rewrite lookup_insert_ne, lookup_insert_eq by congruence.
    rewrite lookup_insert_eq. split; [reflexivity|]. split; [reflexivity|]. split; [reflexivity|].
    intros k H1 H2 H3. rewrite !lookup_insert_ne by congruence. reflexivity.
  - rewrite lookup_insert_ne, lookup_insert_eq by congruence. rewrite lookup_insert_eq.
    split; [reflexivity|]. split; [reflexivity|].
    split; [rewrite !lookup_insert_ne by congruence; reflexivity|].
    intros k H1 H2 H3. rewrite !lookup_insert_ne by congruence. reflexivity.
Qed.

(** X7: the metadata of chunk [j]. *)
Theorem create_chunks_metadata (w : World) (sp : TextSplitter) (text : str) (md : Metadata)
    (sn : option str) (d : ChunksData) :
  create_chunks w sp text md sn = Ok d ->
  length (cd_metadatas d) = length (cd_chunks d) /\
  forall j c m, cd_chunks d !! j = Some c -> cd_metadatas d !! j = Some m ->
  m !! k_chunk_index = Some (VInt (Z.of_nat j)) /\
  m !! k_chunk_size = Some (VInt (zlen c)) /\
  m !! k_source = (match truthy_name sn with Some s => Some (VStr s) | None => md !! k_source end) /\
  forall k, k <> k_chunk_index -> k <> k_chunk_size -> k <> k_source -> m !! k = md !! k.
Proof.
  unfold create_chunks. destruct (split_text sp text) as [chunks|e]; simpl; [|discriminate].
  intros H. destruct (assemble_spec w md sn chunks 0 d H) as (E1 & E2).
  rewrite E1, E2, length_imap. split; [reflexivity|].
  intros j c m Hc Hm. rewrite list_lookup_imap, Hc in Hm. simpl in Hm. injection Hm as <-.
  exact (chunk_metadata_keys md j c sn).
Qed.

Lemma create_chunks_metadata_witness :
  create_chunks (demo_world []) (mkSplitter 5 0 url_separators) (s2l "abcdefgh")
    (<[k_url := VStr demo_url]> ∅) (Some (s2l "wiki"))
  = Ok (mkChunks [s2l "abcde"; s2l "fgh"]
          [id_input (VStr demo_url) 0 (s2l "abcde"); id_input (VStr demo_url) 1 (s2l "fgh")]
          [chunk_metadata (<[k_url := VStr demo_url]> ∅) 0 (s2l "abcde") (Some (s2l "wiki"));
           chunk_metadata (<[k_url := VStr demo_url]> ∅) 1 (s2l "fgh") (Some (s2l "wiki"))]) /\
  length [chunk_metadata (<[k_url := VStr demo_url]> ∅) 0 (s2l "abcde") (Some (s2l "wiki"));
          chunk_metadata (<[k_url := VStr demo_url]> ∅) 1 (s2l "fgh") (Some (s2l "wiki"))]
  = length [s2l "abcde"; s2l "fgh"].
Proof.
  assert (H : create_chunks (demo_world []) (mkSplitter 5 0 url_separators) (s2l "abcdefgh")
    (<[k_url := VStr demo_url]> ∅) (Some (s2l "wiki"))
  = Ok (mkChunks [s2l "abcde"; s2l "fgh"]
          [id_input (VStr demo_url) 0 (s2l "abcde"); id_input (VStr demo_url) 1 (s2l "fgh")]
          [chunk_metadata (<[k_url := VStr demo_url]> ∅) 0 (s2l "abcde") (Some (s2l "wiki"));
           chunk_metadata (<[k_url := VStr demo_url]> ∅) 1 (s2l "fgh") (Some (s2l "wiki"))]))
    by (vm_compute; reflexivity).
  split; [exact H|]. exact (proj1 (create_chunks_metadata _ _ _ _ _ _ H)).
Defined.

(** X8: [metadata['url']] is read only inside the loop: without a url the
    call raises [KeyError('url')] exactly when there is a chunk. *)
Theorem create_chunks_missing_url (w : World) (sp : TextSplitter) (text : str) (md : Metadata)
    (sn : option str) (chunks : list str) :
  md !! k_url = None -> split_text sp text = Ok chunks ->
  create_chunks w sp text md sn
  = match chunks with [] => Ok (mkChunks [] [] []) | _ => Err (key_error k_url) end.
Proof.
  intros Hu Hs. unfold create_chunks. rewrite Hs. simpl.
  destruct chunks as [|c cs]; simpl; [reflexivity|]. rewrite Hu. reflexivity.
Qed.

Lemma create_chunks_missing_url_witness :
  (∅ : Metadata) !! k_url = None /\
  split_text (mkSplitter 5 0 url_separators) (s2l "abcdefgh") = Ok [s2l "abcde"; s2l "fgh"] /\
  create_chunks (demo_world []) (mkSplitter 5 0 url_separators) (s2l "abcdefgh") ∅ None
  = Err (key_error k_url).
Proof.
  assert (H1 : (∅ : Metadata) !! k_url = None) by reflexivity.
  assert (H2 : split_text (mkSplitter 5 0 url_separators) (s2l "abcdefgh")
               = Ok [s2l "abcde"; s2l "fgh"]) by (vm_compute; reflexivity).
  split; [exact H1|]. split; [exact H2|].
  exact (create_chunks_missing_url _ _ _ _ _ _ H1 H2).
Defined.



Lemma fold_records_notin (l : list (str * str * Metadata)) : forall (col : Collection) i,
  i ∉ map (fun r => r.1.1) l ->
  fold_left (fun c '(i, d, m) => <[i := (d, m)]> c) l col !! i = col !! i.
Proof.
  induction l as [|[[k d] m] l IH]; intros col i Hi; simpl in *; [reflexivity|].
  rewrite IH by set_solver. apply lookup_insert_ne. set_solver.
Qed.

Lemma fold_records_in (l : list (str * str * Metadata)) : forall (col : Collection) i d m,
  NoDup (map (fun r => r.1.1) l) -> In (i, d, m) l ->
  fold_left (fun c '(i, d, m) => <[i := (d, m)]> c) l col !! i = Some (d, m).
Proof.
  induction l as [|[[k d'] m'] l IH]; intros col i d m Hn Hin; simpl in *; [destruct Hin|].
  apply NoDup_cons in Hn as [Hk Hn]. destruct Hin as [E|Hin].
  - injection E as <- <- <-. rewrite fold_records_notin by exact Hk. apply lookup_insert_eq.
  - apply IH; assumption.
Qed.

Lemma zip_keys_eq (ids docs : list str) : forall metas : list Metadata,
  length ids = length docs -> length docs = length metas ->
  map (fun r => r.1.1) (zip (zip ids docs) metas) = ids.
Proof.
  revert docs. induction ids as [|i ids IH]; intros [|d docs] [|m metas] H1 H2;
    simpl in *; try lia; [reflexivity|]. f_equal. apply IH; lia.
Qed.

Lemma upsert_records_lookup (ids docs : list str) (metas : list Metadata) (col : Collection)
    (i d : str) (m : Metadata) :
  NoDup ids -> length ids = length docs -> length docs = length metas ->
  In (i, d, m) (zip (zip ids docs) metas) ->
  upsert_records ids docs metas col !! i = Some (d, m).
Proof.
  intros Hn H1 H2 Hin. unfold upsert_records. apply fold_records_in; [|exact Hin].
  rewrite zip_keys_eq by assumption. exact Hn.
Qed.

Lemma zip_imap {B C : Type} (l : list str) : forall (f : nat -> str -> B) (g : nat -> str -> C),
  zip (zip (imap f l) l) (imap g l) = imap (fun j c => (f j c, c, g j c)) l.
Proof.
  induction l as [|c l IH]; intros f g; simpl; [reflexivity|]. f_equal. apply IH.
Qed.

Lemma NoDup_imap_index {B : Type} (l : list str) : forall f : nat -> str -> B,
  (forall i j x y, f i x = f j y -> i = j) -> NoDup (imap f l).
Proof.
  induction l as [|c l IH]; intros f Hf; simpl; [constructor|].
  constructor.
  - intros Hin. apply elem_of_lookup_imap in Hin as (j & y & E & _).
    apply Hf in E. discriminate.
  - apply IH. intros i j x y E. apply Hf in E. injection E. auto.
Qed.


Lemma get_or_create_others (w : World) (name n : str) (cl cl1 : Client) :
  get_or_create_collection w name cl = Ok cl1 -> n <> name -> cl1 !! n = cl !! n.
Proof.
  unfold get_or_create_collection. destruct (collection_name_ok w name); [|discriminate].
  destruct (cl !! name); intros H Hn; injection H as <-; [reflexivity|].
  apply lookup_insert_ne. congruence.
Qed.

Lemma upsert_others (name n : str) (ids docs : list str) (metas : list Metadata)
    (cl cl2 : Client) :
  upsert name ids docs metas cl = Ok cl2 -> n <> name -> cl2 !! n = cl !! n.
Proof.
  intros H Hn. destruct (upsert_ok _ _ _ _ _ _ H) as [-> _].
  apply lookup_insert_ne. congruence.
Qed.

Lemma upsert_nodup (name : str) (ids docs : list str) (metas : list Metadata) (cl cl2 : Client) :
  upsert name ids docs metas cl = Ok cl2 -> NoDup ids.
Proof.
  unfold upsert. destruct ids; [discriminate|].
  destruct (bool_decide (NoDup _)) eqn:E; [|discriminate].
  intros _. apply bool_decide_eq_true in E. exact E.
Qed.

Lemma save_to_chroma_others (w : World) (d : ChunksData) (name n : str) (st : URLChunker) :
  n <> name -> client (snd (save_to_chroma w d name st)) !! n = client st !! n.
Proof.
  intros Hn. unfold save_to_chroma.
  destruct (get_or_create_collection w name (client st)) as [cl1|e] eqn:G; [|reflexivity].
  pose proof (get_or_create_others w name n _ _ G Hn).
  destruct (upsert name _ _ _ cl1) as [cl2|e] eqn:U; simpl; [|assumption].
  rewrite (upsert_others _ _ _ _ _ _ _ U Hn). assumption.
Qed.

(** X12: [process_url] writes to no other collection. *)
Theorem process_url_other_collections (w : World) (now url coll : str) (cs co : Z)
    (sn : option str) (st : URLChunker) (n : str) :
  n <> coll -> client (snd (process_url w now url coll cs co sn st)) !! n = client st !! n.
Proof.
  intros Hn. pose proof (configure_client cs co st) as HC.
  unfold process_url, process_url_body, mbind, lift, mret, get_splitter.
  destruct (configure cs co st) as [[[]|e] st1]; simpl in HC; [|simpl; rewrite HC; reflexivity].
  destruct (fetch_content w url) as [html|e]; [|simpl; rewrite HC; reflexivity].
  destruct (extract_text w html) as [text|e]; [|simpl; rewrite HC; reflexivity].
  destruct (strip text); [simpl; rewrite HC; reflexivity|].
  destruct (create_chunks _ _ _ _ _) as [d|e]; [|simpl; rewrite HC; reflexivity].
  pose proof (save_to_chroma_others w d coll n st1 Hn) as HS.
  destruct (save_to_chroma w d coll st1) as [[[]|e] st2]; simpl in HS |- *;
    rewrite HS, HC; reflexivity.
Qed.

Lemma process_url_other_collections_witness :
  s2l "other" <> demo_coll /\
  client (snd (process_url (demo_world (s2l "hello")) demo_now demo_url demo_coll 1000 200 None
                 (new_url_chunker {[ s2l "other" := ∅ ]}))) !! s2l "other"
  = client (new_url_chunker {[ s2l "other" := ∅ ]}) !! s2l "other".
Proof.
  assert (H : s2l "other" <> demo_coll) by (vm_compute; congruence).
  split; [exact H|]. exact (process_url_other_collections _ _ _ _ _ _ _ _ _ H).
Defined.

(** X11: a successful [process_url] has stored every chunk of the page text
    under the id [sha256(f"{url}_{j}_{chunk}")], with the chunk as document
    and its chunk metadata. *)
Theorem process_url_stored (w : World) (now url coll : str) (cs co : Z) (sn : option str)
    (st : URLChunker) (r : IngestResult) (st' : URLChunker) :
  process_url w now url coll cs co sn st = (r, st') -> r_success r = true ->
  exists html text md chunks col,
    fetch_content w url = Ok html /\ extract_text w html = Ok text /\
    split_text (text_splitter st') text = Ok chunks /\
    r_metadata r = Some md /\ md !! k_url = Some (VStr url) /\
    r_chunks_created r = length chunks /\
    client st' !! coll = Some col /\
    forall j c, chunks !! j = Some c ->
      col !! sha256_hexdigest w (id_input (VStr url) j c) = Some (c, chunk_metadata md j c sn).
Proof.
  unfold process_url, process_url_body, mbind, lift, mret, get_splitter.
  destruct (configure cs co st) as [[[]|e] st1]; [|intros H; injection H as <- _; discriminate].
  destruct (fetch_content w url) as [html|e] eqn:F; [|intros H; injection H as <- _; discriminate].
  destruct (extract_text w html) as [text|e] eqn:X; [|intros H; injection H as <- _; discriminate].
  destruct (strip text); [intros H; injection H as <- _; discriminate|].
  destruct (create_chunks w (text_splitter st1) text (extract_metadata w now html url) sn)
    as [d|e] eqn:CC; [|intros H; injection H as <- _; discriminate].
  unfold save_to_chroma.
  destruct (get_or_create_collection w coll (client st1)) as [cl1|e];
    [|intros H; injection H as <- _; discriminate].
  destruct (upsert coll (cd_ids d) (cd_chunks d) (cd_metadatas d) cl1) as [cl2|e] eqn:U;
    [|intros H; injection H as <- _; discriminate].
  intros H _. injection H as <- <-.
  set (md := extract_metadata w now html url) in *.
  unfold create_chunks in CC. destruct (split_text (text_splitter st1) text) as [chunks|e] eqn:SP;
    simpl in CC; [|discriminate].
  pose proof (extract_metadata_url w now html url) as Hu. fold md in Hu.
  destruct (assemble_spec w md sn chunks 0 d CC) as [E1 E2].
  destruct (assemble_ids w md sn (VStr url) Hu chunks 0 d CC) as [_ E3].
  pose proof (upsert_nodup _ _ _ _ _ _ U) as ND.
  destruct (upsert_ok _ _ _ _ _ _ U) as [-> _].
  exists html, text, md, chunks.
  eexists. split; [reflexivity|]. split; [exact X|]. split; [exact SP|].
  split; [reflexivity|]. split; [exact Hu|]. split; [simpl; rewrite E1; reflexivity|].
  split; [simpl; apply lookup_insert_eq|].
  intros j c Hj. apply upsert_records_lookup; [exact ND| | |].
  - rewrite E3, E1, length_imap. reflexivity.
  - rewrite E2, E1, length_imap. reflexivity.
  - rewrite E1, E2, E3, zip_imap. apply list_elem_of_In.
    apply list_elem_of_lookup_2 with j. rewrite list_lookup_imap, Hj. reflexivity.
Qed.

Lemma process_url_stored_witness :
  exists r st',
  process_url (demo_world (s2l "hello")) demo_now demo_url demo_coll 1000 200 None
    (new_url_chunker ∅) = (r, st') /\ r_success r = true /\
  exists html text md chunks col,
    fetch_content (demo_world (s2l "hello")) demo_url = Ok html /\
    extract_text (demo_world (s2l "hello")) html = Ok text /\
    split_text (text_splitter st') text = Ok chunks /\
    r_metadata r = Some md /\ md !! k_url = Some (VStr demo_url) /\
    r_chunks_created r = length chunks /\
    client st' !! demo_coll = Some col /\
    forall j c, chunks !! j = Some c ->
      col !! sha256_hexdigest (demo_world (s2l "hello")) (id_input (VStr demo_url) j c)
      = Some (c, chunk_metadata md j c None).
Proof.
  destruct (process_url (demo_world (s2l "hello")) demo_now demo_url demo_coll 1000 200 None
    (new_url_chunker ∅)) as [r st'] eqn:P.
  exists r, st'. split; [reflexivity|].
  assert (Hs : r_success r = true).
  { pose proof (f_equal (fun p => r_success (fst p)) P) as E. simpl in E. rewrite <- E.
    vm_compute. reflexivity. }
  split; [exact Hs|]. exact (process_url_stored _ _ _ _ _ _ _ _ _ _ P Hs).
Defined.

(** ** A non-blank text gives at least one chunk *)

(** The text has a character that is not whitespace. *)
Definition has_ns (s : str) : bool := existsb (fun c => negb (is_space c)) s.

Lemma has_ns_app (a b : str) : has_ns (a ++ b) = has_ns a || has_ns b.
Proof. unfold has_ns. apply existsb_app. Qed.

Lemma has_ns_rev (s : str) : has_ns (rev s) = has_ns s.
Proof.
  induction s as [|c s IH]; [reflexivity|].
  cbn [rev]. rewrite has_ns_app, IH. unfold has_ns. cbn [existsb].
  rewrite orb_false_r, orb_comm. reflexivity.
Qed.

Lemma has_ns_lstrip (s : str) : has_ns (lstrip s) = has_ns s.
Proof.
  induction s as [|c s IH]; [reflexivity|]. cbn [lstrip].
  destruct (is_space c) eqn:E; [|reflexivity].
  rewrite IH. unfold has_ns. cbn [existsb]. rewrite E. reflexivity.
Qed.

Lemma lstrip_blank (s : str) : has_ns s = false -> lstrip s = [].
Proof.
  induction s as [|c s IH]; intros H; [reflexivity|].
  unfold has_ns in H. cbn [existsb] in H. cbn [lstrip].
  destruct (is_space c); simpl in H; [apply IH; exact H|discriminate].
Qed.

Lemma nonblank_has_ns (s : str) : strip s <> [] -> has_ns s = true.
Proof.
  intros H. destruct (has_ns s) eqn:E; [reflexivity|]. exfalso. apply H.
  unfold strip. rewrite (lstrip_blank s E). reflexivity.
Qed.

Lemma strip_has_ns (s : str) : has_ns s = true -> strip s <> [].
Proof.
  intros H E. unfold strip in E.
  assert (H' : has_ns (rev (lstrip (rev (lstrip s)))) = true)
    by (rewrite has_ns_rev, has_ns_lstrip, has_ns_rev, has_ns_lstrip; exact H).
  rewrite E in H'. discriminate.
Qed.

Lemma has_ns_concat (l : list str) : has_ns (concat l) = existsb has_ns l.
Proof.
  induction l as [|x l IH]; [reflexivity|]. cbn [concat existsb]. rewrite has_ns_app, IH.
  reflexivity.
Qed.

Lemma split_keep_concat (sep : str) : forall text skip cur,
  concat (split_keep sep text skip cur) = rev cur ++ text.
Proof.
  induction text as [|c rest IH]; intros skip cur; simpl.
  - rewrite app_nil_r. reflexivity.
  - destruct skip as [|k].
    + destruct (is_prefix sep (c :: rest)); simpl; rewrite IH; simpl;
        rewrite <- ?app_assoc; reflexivity.
    + rewrite IH. simpl. rewrite <- app_assoc. reflexivity.
Qed.

Lemma concat_filter_nonempty (l : list str) :
  concat (List.filter (fun s => negb (bool_decide (s = []))) l) = concat l.
Proof.
  induction l as [|x l IH]; [reflexivity|]. destruct x as [|c x].
  - cbn [List.filter]. rewrite bool_decide_eq_true_2 by reflexivity. exact IH.
  - cbn [List.filter]. rewrite bool_decide_eq_false_2 by discriminate. simpl. rewrite IH.
    reflexivity.
Qed.

Lemma split_with_sep_concat (sep text : str) : concat (split_with_sep sep text) = text.
Proof.
  unfold split_with_sep. destruct sep as [|c s].
  - induction text as [|x t IH]; [reflexivity|]. simpl. rewrite IH. reflexivity.
  - rewrite concat_filter_nonempty, split_keep_concat. reflexivity.
Qed.

Lemma join_nil (docs : list str) : join [] docs = concat docs.
Proof.
  destruct docs as [|d ds]; [reflexivity|]. simpl. f_equal.
  induction ds as [|x ds IH]; [reflexivity|]. simpl. rewrite IH. reflexivity.
Qed.

Lemma join_docs_has_ns (cur : list str) :
  existsb has_ns cur = true -> join_docs [] cur <> None.
Proof.
  intros H. unfold join_docs. rewrite join_nil.
  destruct (strip (concat cur)) eqn:E; [|discriminate].
  exfalso. apply (strip_has_ns (concat cur)); [rewrite has_ns_concat; exact H|exact E].
Qed.

Section MergeNonempty.
Variable ts : TextSplitter.

(** Some document is already emitted, or [current_doc] holds a
    non-blank split. *)
Definition merge_some (st : list str * list str * Z) : Prop :=
  st.1.1 <> [] \/ existsb has_ns st.1.2 = true.

Lemma merge_step_some (st st' : list str * list str * Z) (d : str) :
  merge_step ts [] st d = Ok st' -> merge_some st \/ has_ns d = true -> merge_some st'.
Proof.
  destruct st as [[docs cur] total]. unfold merge_step. intros H Hp.
  unfold merge_some in *; simpl in Hp.
  destruct ((total + zlen d + match cur with [] => 0 | _ => sep_len [] end
             >? chunk_size ts)%Z).
  - destruct cur as [|x r].
    + injection H as <-. simpl.
      destruct Hp as [[Hd|Hd]|Hd]; [left; exact Hd|discriminate|right; rewrite Hd; reflexivity].
    + destruct (pop_loop ts [] (zlen d) (x :: r) total) as [[cur' total']|e]; [|discriminate].
      injection H as <-. simpl.
      destruct Hp as [[Hd|Hd]|Hd].
      * left. intros E. apply app_eq_nil in E as [E _]. exact (Hd E).
      * left. destruct (join_docs [] (x :: r)) eqn:J;
          [|exfalso; exact (join_docs_has_ns _ Hd J)].
        intros E. apply app_eq_nil in E as [_ E]. discriminate.
      * right. rewrite existsb_app. simpl. rewrite Hd. apply orb_true_r.
  - injection H as <-. simpl.
    destruct Hp as [[Hd|Hd]|Hd]; [left; exact Hd|right|right]; rewrite existsb_app.
    + rewrite Hd. reflexivity.
    + simpl. rewrite Hd. apply orb_true_r.
Qed.

Lemma merge_loop_some_keep (splits : list str) : forall st st',
  merge_loop ts [] st splits = Ok st' -> merge_some st -> merge_some st'.
Proof.
  induction splits as [|d ds IH]; intros st st' H Hs; simpl in H; [injection H as <-; exact Hs|].
  destruct (merge_step ts [] st d) as [st1|e] eqn:E; simpl in H; [|discriminate].
  exact (IH _ _ H (merge_step_some _ _ _ E (or_introl Hs))).
Qed.

Lemma merge_loop_some (splits : list str) : forall st st',
  merge_loop ts [] st splits = Ok st' -> existsb has_ns splits = true -> merge_some st'.
Proof.
  induction splits as [|d ds IH]; intros st st' H Hs; simpl in H, Hs; [discriminate|].
  destruct (merge_step ts [] st d) as [st1|e] eqn:E; simpl in H; [|discriminate].
  destruct (has_ns d) eqn:Hd; simpl in Hs.
  - exact (merge_loop_some_keep _ _ _ H (merge_step_some _ _ _ E (or_intror Hd))).
  - exact (IH _ _ H Hs).
Qed.

Lemma merge_splits_some (splits m : list str) :
  merge_splits ts [] splits = Ok m -> existsb has_ns splits = true -> m <> [].
Proof.
  unfold merge_splits. intros H Hs.
  destruct (merge_loop ts [] ([], [], 0%Z) splits) as [[[docs cur] total]|e] eqn:E;
    [|discriminate].
  injection H as <-. destruct (merge_loop_some _ _ _ E Hs) as [Hd|Hd]; simpl in Hd.
  - intros E'. apply app_eq_nil in E' as [E' _]. exact (Hd E').
  - destruct (join_docs [] cur) eqn:J; [|exfalso; exact (join_docs_has_ns _ Hd J)].
    intros E'. apply app_eq_nil in E' as [_ E']. discriminate.
Qed.

End MergeNonempty.

Lemma flush_good_some (ts : TextSplitter) (final good final1 : list str) :
  flush_good ts final good = Ok final1 ->
  final <> [] \/ existsb has_ns good = true -> final1 <> [].
Proof.
  unfold flush_good. intros H Hp. destruct good as [|g gs].
  - injection H as <-. destruct Hp as [Hp|Hp]; [exact Hp|discriminate].
  - destruct (merge_splits ts [] (g :: gs)) as [m|e] eqn:M; simpl in H; [|discriminate].
    injection H as <-. intros E. apply app_eq_nil in E as [E1 E2].
    destruct Hp as [Hp|Hp]; [exact (Hp E1)|exact (merge_splits_some ts _ _ M Hp E2)].
Qed.

Lemma split_loop_some (ts : TextSplitter) (recurse : option (str -> Res (list str))) :
  (forall f, recurse = Some f -> forall s o, has_ns s = true -> f s = Ok o -> o <> []) ->
  forall splits final good out,
  split_loop ts recurse splits final good = Ok out ->
  final <> [] \/ existsb has_ns good = true \/ existsb has_ns splits = true -> out <> [].
Proof.
  intros HS. induction splits as [|s ss IH]; intros final good out H Hp; simpl in H.
  - apply (flush_good_some _ _ _ _ H).
    destruct Hp as [Hp|[Hp|Hp]]; [left; exact Hp|right; exact Hp|discriminate].
  - destruct (zlen s <? chunk_size ts)%Z.
    + apply (IH _ _ _ H). destruct Hp as [Hp|[Hp|Hp]].
      * left. exact Hp.
      * right; left. rewrite existsb_app, Hp. reflexivity.
      * simpl in Hp. destruct (has_ns s) eqn:Ho; simpl in Hp.
        -- right; left. rewrite existsb_app. simpl. rewrite Ho. apply orb_true_r.
        -- right; right. exact Hp.
    + destruct (flush_good ts final good) as [final1|e] eqn:F; simpl in H; [|discriminate].
      assert (Hq : final1 <> [] \/ has_ns s = true \/ existsb has_ns ss = true).
      { destruct Hp as [Hp|[Hp|Hp]].
        - left. exact (flush_good_some _ _ _ _ F (or_introl Hp)).
        - left. exact (flush_good_some _ _ _ _ F (or_intror Hp)).
        - simpl in Hp. destruct (has_ns s); [right; left; reflexivity|right; right; exact Hp]. }
      destruct recurse as [f|].
      * destruct (f s) as [sub|e] eqn:Fs; simpl in H; [|discriminate].
        apply (IH _ _ _ H). destruct Hq as [Hq|[Hq|Hq]].
        -- left. intros E. apply app_eq_nil in E as [E _]. exact (Hq E).
        -- left. intros E. apply app_eq_nil in E as [_ E]. exact (HS f eq_refl s sub Hq Fs E).
        -- right; right; exact Hq.
      * apply (IH _ _ _ H). destruct Hq as [Hq|[Hq|Hq]].
        -- left. intros E. apply app_eq_nil in E as [E _]. exact (Hq E).
        -- left. intros E. apply app_eq_nil in E as [_ E]. discriminate.
        -- right; right; exact Hq.
Qed.

Lemma split_text_rec_some (ts : TextSplitter) : forall seps last text out,
  has_ns text = true -> split_text_rec ts seps last text = Ok out -> out <> [].
Proof.
  assert (HW : forall sep text, has_ns text = true ->
                 existsb has_ns (split_with_sep sep text) = true).
  { intros sep text H. rewrite <- has_ns_concat, split_with_sep_concat. exact H. }
  induction seps as [|s rest IH]; intros last text out Ht H; simpl in H.
  - refine (split_loop_some ts None (fun f E => ltac:(discriminate E)) _ _ _ _ H _).
    right; right. apply HW. exact Ht.
  - destruct s as [|c s'].
    + refine (split_loop_some ts None (fun f E => ltac:(discriminate E)) _ _ _ _ H _).
      right; right. apply HW. exact Ht.
    + destruct (contains (c :: s') text); [|exact (IH _ _ _ Ht H)].
      destruct rest as [|r0 rs].
      * refine (split_loop_some ts None (fun f E => ltac:(discriminate E)) _ _ _ _ H _).
        right; right. apply HW. exact Ht.
      * refine (split_loop_some ts (Some (split_text_rec ts (r0 :: rs) last)) _ _ _ _ _ H _).
        -- intros f E s0 o Hs0 Ho. injection E as <-. exact (IH _ _ _ Hs0 Ho).
        -- right; right. apply HW. exact Ht.
Qed.

Lemma split_text_nonblank (ts : TextSplitter) (text : str) (chunks : list str) :
  strip text <> [] -> split_text ts text = Ok chunks -> chunks <> [].
Proof.
  intros Ht. unfold split_text. destruct (separators ts) as [|s0 ss]; [discriminate|].
  apply split_text_rec_some. apply nonblank_has_ns. exact Ht.
Qed.









(** X24: [split_text] gives at least one chunk for a text that is not
    blank (has a character that is not whitespace). *)
Theorem split_text_nonblank_chunks (ts : TextSplitter) (text : str) (chunks : list str) :
  strip text <> [] -> split_text ts text = Ok chunks -> chunks <> [].
Proof.
  intros Ht Hs. exact (split_text_nonblank ts text chunks Ht Hs).
Qed.

Lemma split_text_nonblank_chunks_witness :
  strip (s2l " hi ") <> ([] : str) /\
  split_text (mkSplitter 5 0 url_separators) (s2l " hi ") = Ok [s2l "hi"] /\
  [s2l "hi"] <> ([] : list str).
Proof.
  assert (H1 : strip (s2l " hi ") <> ([] : str)) by (vm_compute; discriminate).
  assert (H2 : split_text (mkSplitter 5 0 url_separators) (s2l " hi ") = Ok [s2l "hi"])
    by (vm_compute; reflexivity).
  split; [exact H1|]. split; [exact H2|].
  exact (split_text_nonblank_chunks _ _ _ H1 H2).
Defined.



Lemma zip_app_eq {A B : Type} (a c : list A) (b d : list B) :
  length a = length b -> zip (a ++ c) (b ++ d) = zip a b ++ zip c d.
Proof.
  revert b. induction a as [|x a IH]; intros [|y b] H; simpl in *; try lia; [reflexivity|].
  f_equal. apply IH. lia.
Qed.

Lemma in_zip_map (w : World) (g : Metadata) (sc : list str) (c : str) :
  In c sc -> In (sha256_hexdigest w c, c, g) (zip (zip (map (sha256_hexdigest w) sc) sc)
                                                  (map (fun _ => g) sc)).
Proof.
  induction sc as [|x sc IH]; simpl; [tauto|]. intros [<-|H]; [left; reflexivity|right; auto].
Qed.

Lemma add_texts_records_in (w : World) (sp : TextSplitter)
    (metadatas : option (list Metadata)) (sn : option str) (texts : list str) :
  forall i chunks ids metas,
  add_texts_records w sp metadatas sn i texts = Ok (chunks, ids, metas) ->
  length ids = length chunks /\ length chunks = length metas /\
  forall j t s c, texts !! j = Some t -> split_text sp t = Ok s -> In c s ->
    In (sha256_hexdigest w c, c, with_source sn (base_metadata metadatas (i + j)))
       (zip (zip ids chunks) metas).
Proof.
  induction texts as [|t ts IH]; intros i chunks ids metas H; simpl in H.
  - injection H as <- <- <-. split; [reflexivity|]. split; [reflexivity|].
    intros j t s c Hj. discriminate.
  - destruct (split_text sp t) as [sc|e] eqn:Ht; simpl in H; [|discriminate].
    destruct (add_texts_records w sp metadatas sn (S i) ts) as [[[c1 i1] m1]|e] eqn:R;
      simpl in H; [|discriminate].
    injection H as <- <- <-. destruct (IH _ _ _ _ R) as (L1 & L2 & HI).
    rewrite !length_app, !length_map.
    split; [lia|]. split; [lia|].
    rewrite zip_app_eq by (rewrite length_map; reflexivity).
    rewrite zip_app_eq by (rewrite length_zip, !length_map; lia).
    intros [|j] t' s c Hj Hs Hc; simpl in Hj; apply in_or_app.
    + left. injection Hj as <-. rewrite Ht in Hs. injection Hs as <-.
      rewrite Nat.add_0_r. apply in_zip_map. exact Hc.
    + right. replace (i + S j) with (S i + j) by lia. exact (HI j t' s c Hj Hs Hc).
Qed.

(** X14: a successful [add_texts] has stored every chunk of [texts[j]] under
    the id [sha256(chunk)], with the chunk as document and the metadata of
    text [j] with its [source]. *)
Theorem add_texts_stored (w : World) (coll : str) (texts : list str)
    (metadatas : option (list Metadata)) (sn : option str) (cs co : Z) (cl cl' : Client)
    (j : nat) (t c : str) (s : list str) :
  add_texts w coll texts metadatas sn cs co cl = (Ok tt, cl') ->
  texts !! j = Some t -> split_text (mkSplitter cs co default_separators) t = Ok s -> In c s ->
  exists col, cl' !! coll = Some col /\
    col !! sha256_hexdigest w c = Some (c, with_source sn (base_metadata metadatas j)).
Proof.
  intros H Hj Hs Hc. unfold add_texts in H.
  destruct (get_or_create_collection w coll cl) as [cl1|e]; [|discriminate].
  destruct (new_splitter cs co default_separators) as [sp|e] eqn:NS; [|discriminate].
  destruct (new_splitter_Ok_inv _ _ _ _ NS) as [-> _].
  destruct (add_texts_records w _ metadatas sn 0 texts) as [[[chunks ids] metas]|e] eqn:R;
    [|discriminate].
  destruct (add_texts_records_in w _ metadatas sn texts 0 chunks ids metas R) as (L1 & L2 & HI).
  pose proof (HI j t s c Hj Hs Hc) as Hin. simpl in Hin.
  destruct chunks as [|c0 cs0].
  - destruct ids; [simpl in Hin; destruct Hin|simpl in L1; discriminate].
  - destruct (upsert coll ids (c0 :: cs0) metas cl1) as [cl2|e] eqn:U; [|discriminate].
    injection H as <-. destruct (upsert_ok _ _ _ _ _ _ U) as [-> _].
    eexists. split; [apply lookup_insert_eq|].
    apply upsert_records_lookup; [exact (upsert_nodup _ _ _ _ _ _ U)|exact L1|exact L2|exact Hin].
Qed.

Lemma add_texts_stored_witness :
  add_texts (demo_world []) demo_coll [s2l "alpha"; s2l "beta"] (Some [{[k_title := VStr (s2l "t0")]}; {[k_title := VStr (s2l "t1")]}]) (Some (s2l "wiki")) 5 0 ∅
    = (Ok tt, snd (add_texts (demo_world []) demo_coll [s2l "alpha"; s2l "beta"] (Some [{[k_title := VStr (s2l "t0")]}; {[k_title := VStr (s2l "t1")]}]) (Some (s2l "wiki")) 5 0 ∅)) /\
  [s2l "alpha"; s2l "beta"] !! 1 = Some (s2l "beta") /\
  split_text (mkSplitter 5 0 default_separators) (s2l "beta") = Ok [s2l "beta"] /\
  In (s2l "beta") [s2l "beta"] /\
  exists col, snd (add_texts (demo_world []) demo_coll [s2l "alpha"; s2l "beta"] (Some [{[k_title := VStr (s2l "t0")]}; {[k_title := VStr (s2l "t1")]}]) (Some (s2l "wiki")) 5 0 ∅) !! demo_coll = Some col /\
    col !! sha256_hexdigest (demo_world []) (s2l "beta")
    = Some (s2l "beta", with_source (Some (s2l "wiki")) (base_metadata (Some [{[k_title := VStr (s2l "t0")]}; {[k_title := VStr (s2l "t1")]}]) 1)).
Proof.
  assert (H1 : add_texts (demo_world []) demo_coll [s2l "alpha"; s2l "beta"] (Some [{[k_title := VStr (s2l "t0")]}; {[k_title := VStr (s2l "t1")]}]) (Some (s2l "wiki")) 5 0 ∅
    = (Ok tt, snd (add_texts (demo_world []) demo_coll [s2l "alpha"; s2l "beta"] (Some [{[k_title := VStr (s2l "t0")]}; {[k_title := VStr (s2l "t1")]}]) (Some (s2l "wiki")) 5 0 ∅))) by (vm_compute; reflexivity).
  assert (H2 : [s2l "alpha"; s2l "beta"] !! 1 = Some (s2l "beta")) by reflexivity.
  assert (H3 : split_text (mkSplitter 5 0 default_separators) (s2l "beta") = Ok [s2l "beta"])
    by (vm_compute; reflexivity).
  assert (H4 : In (s2l "beta") [s2l "beta"]) by (simpl; auto).
  split; [exact H1|]. split; [exact H2|]. split; [exact H3|]. split; [exact H4|].
  exact (add_texts_stored _ _ _ _ _ _ _ _ _ _ _ _ _ H1 H2 H3 H4).
Defined.

(** X16: [add_texts] writes to no other collection. *)
Theorem add_texts_other_collections (w : World) (coll : str) (texts : list str)
    (metadatas : option (list Metadata)) (sn : option str) (cs co : Z) (cl : Client) (n : str) :
  n <> coll -> snd (add_texts w coll texts metadatas sn cs co cl) !! n = cl !! n.
Proof.
  intros Hn. unfold add_texts.
  destruct (get_or_create_collection w coll cl) as [cl1|e] eqn:G; [|reflexivity].
  pose proof (get_or_create_others w coll n cl cl1 G Hn) as E1.
  destruct (new_splitter cs co default_separators) as [sp|e]; [|exact E1].
  destruct (add_texts_records w sp metadatas sn 0 texts) as [[[chunks ids] metas]|e];
    [|exact E1].
  destruct chunks as [|c0 cs0]; [exact E1|].
  destruct (upsert coll ids (c0 :: cs0) metas cl1) as [cl2|e] eqn:U; [|exact E1].
  simpl. rewrite (upsert_others _ _ _ _ _ _ _ U Hn). exact E1.
Qed.

Lemma add_texts_other_collections_witness :
  s2l "other" <> demo_coll /\
  snd (add_texts (demo_world []) demo_coll [s2l "alpha beta"] None (Some (s2l "wiki")) 5 0
         {[ s2l "other" := ∅ ]}) !! s2l "other" = ({[ s2l "other" := ∅ ]} : Client) !! s2l "other".
Proof.
  assert (H : s2l "other" <> demo_coll) by (vm_compute; congruence).
  split; [exact H|]. exact (add_texts_other_collections _ _ _ _ _ _ _ _ _ H).
Defined.

(** X17: when [add_texts] raises it has written no record: the client is
    unchanged, or only the (new, empty) collection was created by
    [get_or_create_collection] before the error. *)
Theorem add_texts_error_no_records (w : World) (coll : str) (texts : list str)
    (metadatas : option (list Metadata)) (sn : option str) (cs co : Z) (cl : Client) (e : str) :
  fst (add_texts w coll texts metadatas sn cs co cl) = Err e ->
  snd (add_texts w coll texts metadatas sn cs co cl) = cl \/
  (cl !! coll = None /\ snd (add_texts w coll texts metadatas sn cs co cl) = <[coll := ∅]> cl).
Proof.
  unfold add_texts.
  assert (G : forall cl1, get_or_create_collection w coll cl = Ok cl1 ->
                cl1 = cl \/ (cl !! coll = None /\ cl1 = <[coll := ∅]> cl)).
  { unfold get_or_create_collection. destruct (collection_name_ok w coll); [|discriminate].
    destruct (cl !! coll); intros cl1 H; injection H as <-; auto. }
  destruct (get_or_create_collection w coll cl) as [cl1|e'] eqn:HG; [|auto].
  specialize (G cl1 eq_refl).
  destruct (new_splitter cs co default_separators) as [sp|e']; [|auto].
  destruct (add_texts_records w sp metadatas sn 0 texts) as [[[chunks ids] metas]|e']; [|auto].
  destruct chunks as [|c0 cs0]; [discriminate|].
  destruct (upsert coll ids (c0 :: cs0) metas cl1) as [cl2|e']; [discriminate|auto].
Qed.

Lemma add_texts_error_no_records_witness :
  fst (add_texts (demo_world []) demo_coll [s2l "alpha beta"] None None 5 0 ∅) = Err empty_metadata_msg /\
  (snd (add_texts (demo_world []) demo_coll [s2l "alpha beta"] None None 5 0 ∅) = ∅ \/
   ((∅ : Client) !! demo_coll = None /\ snd (add_texts (demo_world []) demo_coll [s2l "alpha beta"] None None 5 0 ∅) = <[demo_coll := ∅]> ∅)).
Proof.
  assert (H : fst (add_texts (demo_world []) demo_coll [s2l "alpha beta"] None None 5 0 ∅) = Err empty_metadata_msg) by (vm_compute; reflexivity).
  split; [exact H|]. exact (add_texts_error_no_records _ _ _ _ _ _ _ _ _ H).
Defined.

(** X6: the metadata of a page always has exactly the seven keys, with the
    url under [url], whether or not parsing succeeded. *)
Theorem extract_metadata_keys (w : World) (now html url : str) :
  dom (extract_metadata w now html url)
  = {[ k_url; k_processed_date; k_title; k_description; k_keywords; k_author; k_language ]} /\
  extract_metadata w now html url !! k_url = Some (VStr url) /\
  extract_metadata w now html url !! k_processed_date = Some (VStr now).
Proof.
  split; [|split; [apply extract_metadata_url|]].
  - unfold extract_metadata. destruct (soup_fields w html) as [[[[[t d] k] a] l]|];
      rewrite !dom_insert_L, dom_empty_L; set_solver.
  - unfold extract_metadata. destruct (soup_fields w html) as [[[[[t d] k] a] l]|];
      rewrite !lookup_insert_ne by (vm_compute; congruence); apply lookup_insert_eq.
Qed.

(** X13: when [process_url] reports a failure it has written no record: the
    client is unchanged, or only the empty collection created by
    [get_or_create_collection] was added. *)
Theorem process_url_failure_no_records (w : World) (now url coll : str) (cs co : Z)
    (sn : option str) (st : URLChunker) :
  r_success (fst (process_url w now url coll cs co sn st)) = false ->
  client (snd (process_url w now url coll cs co sn st)) = client st \/
  (client st !! coll = None /\
   client (snd (process_url w now url coll cs co sn st)) = <[coll := ∅]> (client st)).
Proof.
  pose proof (configure_client cs co st) as HC.
  unfold process_url, process_url_body, mbind, lift, mret, get_splitter.
  destruct (configure cs co st) as [[[]|e] st1]; simpl in HC; [|simpl; auto].
  destruct (fetch_content w url) as [html|e]; [|simpl; auto].
  destruct (extract_text w html) as [text|e]; [|simpl; auto].
  destruct (strip text); [simpl; auto|].
  destruct (create_chunks _ _ _ _ _) as [d|e]; [|simpl; auto].
  unfold save_to_chroma. rewrite HC.
  destruct (get_or_create_collection w coll (client st)) as [cl1|e] eqn:G; [|simpl; rewrite HC; auto].
  destruct (upsert coll (cd_ids d) (cd_chunks d) (cd_metadatas d) cl1) as [cl2|e];
    simpl; [discriminate|].
  intros _. unfold get_or_create_collection in G.
  destruct (collection_name_ok w coll); [|discriminate].
  destruct (client st !! coll); injection G as <-; auto.
Qed.

Lemma process_url_failure_no_records_witness :
  r_success (fst (process_url offline_world demo_now demo_url demo_coll 1000 200 None
                    (new_url_chunker ∅))) = false /\
  (client (snd (process_url offline_world demo_now demo_url demo_coll 1000 200 None
                  (new_url_chunker ∅))) = client (new_url_chunker ∅) \/
   (client (new_url_chunker ∅) !! demo_coll = None /\
    client (snd (process_url offline_world demo_now demo_url demo_coll 1000 200 None
                   (new_url_chunker ∅))) = <[demo_coll := ∅]> (client (new_url_chunker ∅)))).
Proof.
  assert (H : r_success (fst (process_url offline_world demo_now demo_url demo_coll 1000 200 None
                                (new_url_chunker ∅))) = false) by (vm_compute; reflexivity).
  split; [exact H|]. exact (process_url_failure_no_records _ _ _ _ _ _ _ _ H).
Defined.

Lemma upsert_records_idem (ids docs : list str) (metas : list Metadata) (col : Collection) :
  NoDup ids -> length ids = length docs -> length docs = length metas ->
  upsert_records ids docs metas (upsert_records ids docs metas col)
  = upsert_records ids docs metas col.
Proof.
  intros Hn L1 L2. apply map_eq. intros i.
  destruct (decide (i ∈ ids)) as [Hi|Hi].
  - apply list_elem_of_lookup_1 in Hi as [p Hp].
    assert (Hd : is_Some (docs !! p)) by (apply lookup_lt_is_Some; apply lookup_lt_Some in Hp; lia).
    assert (Hm : is_Some (metas !! p)) by (apply lookup_lt_is_Some; apply lookup_lt_Some in Hp; lia).
    destruct Hd as [d Hd], Hm as [m Hm].
    assert (Hin : In (i, d, m) (zip (zip ids docs) metas)).
    { apply list_elem_of_In. apply list_elem_of_lookup_2 with p.
      rewrite lookup_zip_with, lookup_zip_with, Hp, Hd, Hm. reflexivity. }
    rewrite !(upsert_records_lookup _ _ _ _ i d m Hn L1 L2 Hin). reflexivity.
  - unfold upsert_records. rewrite !fold_records_notin; [reflexivity| |];
      rewrite zip_keys_eq by assumption; exact Hi.
Qed.

(** X15: [add_texts] is idempotent: calling it again with the same
    arguments on the client it produced succeeds and changes nothing. *)
Theorem add_texts_idempotent (w : World) (coll : str) (texts : list str)
    (metadatas : option (list Metadata)) (sn : option str) (cs co : Z) (cl cl1 : Client) :
  add_texts w coll texts metadatas sn cs co cl = (Ok tt, cl1) ->
  add_texts w coll texts metadatas sn cs co cl1 = (Ok tt, cl1).
Proof.
  unfold add_texts. intros H.
  destruct (get_or_create_collection w coll cl) as [c1|e] eqn:G; [|discriminate].
  destruct (get_or_create_ok w coll cl c1 G) as [Hn Hs].
  destruct (new_splitter cs co default_separators) as [sp|e]; [|discriminate].
  destruct (add_texts_records w sp metadatas sn 0 texts) as [[[chunks ids] metas]|e] eqn:R;
    [|discriminate].
  destruct chunks as [|c0 cs0].
  - injection H as <-. rewrite (get_or_create_existing w coll c1 Hn Hs). reflexivity.
  - destruct (upsert coll ids (c0 :: cs0) metas c1) as [c2|e] eqn:U; [|discriminate].
    injection H as <-. pose proof (upsert_nodup _ _ _ _ _ _ U) as ND.
    destruct (upsert_ok _ _ _ _ _ _ U) as [-> Hu].
    rewrite (get_or_create_existing w coll _ Hn) by (rewrite lookup_insert_eq; eauto).
    rewrite (Hu _ _ _ (upsert_metas _ _ _ _ _ _ U)), lookup_insert_eq. simpl.
    destruct (add_texts_records_in w sp metadatas sn texts 0 _ _ _ R) as (L1 & L2 & _).
    rewrite upsert_records_idem by assumption. rewrite insert_insert_eq. reflexivity.
Qed.

Lemma add_texts_idempotent_witness :
  add_texts (demo_world []) demo_coll [s2l "alpha beta"] None (Some (s2l "wiki")) 5 0 ∅
    = (Ok tt, snd (add_texts (demo_world []) demo_coll [s2l "alpha beta"] None (Some (s2l "wiki")) 5 0 ∅)) /\
  add_texts (demo_world []) demo_coll [s2l "alpha beta"] None (Some (s2l "wiki")) 5 0
    (snd (add_texts (demo_world []) demo_coll [s2l "alpha beta"] None (Some (s2l "wiki")) 5 0 ∅))
    = (Ok tt, snd (add_texts (demo_world []) demo_coll [s2l "alpha beta"] None (Some (s2l "wiki")) 5 0 ∅)).
Proof.
  assert (H : add_texts (demo_world []) demo_coll [s2l "alpha beta"] None (Some (s2l "wiki")) 5 0 ∅
    = (Ok tt, snd (add_texts (demo_world []) demo_coll [s2l "alpha beta"] None (Some (s2l "wiki")) 5 0 ∅)))
    by (vm_compute; reflexivity).
  split; [exact H|]. exact (add_texts_idempotent _ _ _ _ _ _ _ _ _ H).
Defined.

(** ** Deleting *)


Lemma delete_ids_lookup (ids : list str) : forall (col : Collection) i,
  (In i ids -> delete_ids ids col !! i = None) /\
  (~ In i ids -> delete_ids ids col !! i = col !! i).
Proof.
  unfold delete_ids. induction ids as [|j ids IH]; intros col i; simpl; [tauto|].
  destruct (IH (delete j col) i) as [H1 H2]. split.
  - intros [->|H]; [|auto].
    destruct (List.in_dec (fun a b => decide (a = b)) i ids) as [Hi|Hi]; [auto|]. rewrite H2 by exact Hi.
    apply lookup_delete_eq.
  - intros Hn. rewrite H2 by tauto. apply lookup_delete_ne. intros ->. tauto.
Qed.

Lemma delete_ids_size (ids : list str) : forall col : Collection, NoDup ids ->
  size (delete_ids ids col) + length (List.filter (fun i => bool_decide (is_Some (col !! i))) ids)
  = size col.
Proof.
  unfold delete_ids. induction ids as [|j ids IH]; intros col Hn; simpl; [lia|].
  apply NoDup_cons in Hn as [Hj Hn]. rewrite list_elem_of_In in Hj.
  specialize (IH (delete j col) Hn).
  assert (E : List.filter (fun i => bool_decide (is_Some (delete j col !! i))) ids
              = List.filter (fun i => bool_decide (is_Some (col !! i))) ids).
  { apply filter_ext_in. intros i Hi. rewrite lookup_delete_ne; [reflexivity|].
    intros ->. tauto. }
  rewrite E in IH. rewrite map_size_delete in IH.
  destruct (col !! j) as [x|] eqn:Hc; simpl.
  - try (rewrite bool_decide_eq_true_2 by eauto); simpl.
    assert (size col <> 0).
    { intros Z. apply map_size_empty_inv in Z. subst col. rewrite lookup_empty in Hc. discriminate. }
    lia.
  - try (rewrite bool_decide_eq_false_2 by (intros [? ?]; discriminate)); simpl in *; unfold id in IH; lia.
Qed.

(** X18: after [delete_collection] the collection is gone; creating it again
    gives an empty collection (the reset of main.py and the demos). *)
Theorem delete_collection_recreate (w : World) (name : str) (cl cl' : Client) :
  delete_collection name cl = Ok cl' -> collection_name_ok w name = true ->
  count_items name cl' = Err not_found_msg /\
  (forall n, n <> name -> cl' !! n = cl !! n) /\
  exists cl'', get_or_create_collection w name cl' = Ok cl'' /\ count_items name cl'' = Ok 0.
Proof.
  unfold delete_collection. destruct (cl !! name); [|discriminate]. intros H Hn.
  injection H as <-. unfold count_items, get_or_create_collection.
  rewrite lookup_delete_eq, Hn. split; [reflexivity|]. split.
  - intros n Hne. apply lookup_delete_ne. congruence.
  - eexists. split; [reflexivity|]. rewrite lookup_insert_eq. reflexivity.
Qed.

Lemma delete_collection_recreate_witness :
  delete_collection demo_coll {[ demo_coll := {[ s2l "id" := (s2l "doc", ∅) ]} ]} = Ok ∅ /\
  collection_name_ok (demo_world []) demo_coll = true /\
  count_items demo_coll ∅ = Err not_found_msg /\
  (forall n, n <> demo_coll -> (∅ : Client) !! n
             = ({[ demo_coll := {[ s2l "id" := (s2l "doc", ∅) ]} ]} : Client) !! n) /\
  exists cl'', get_or_create_collection (demo_world []) demo_coll ∅ = Ok cl'' /\
               count_items demo_coll cl'' = Ok 0.
Proof.
  assert (H : delete_collection demo_coll {[ demo_coll := {[ s2l "id" := (s2l "doc", ∅) ]} ]}
              = Ok ∅) by (vm_compute; reflexivity).
  split; [exact H|]. split; [reflexivity|].
  exact (delete_collection_recreate (demo_world []) _ _ _ H eq_refl).
Defined.

(** X19: [delete_by_ids] removes exactly the given ids from that collection. *)
Theorem delete_by_ids_removes (coll : str) (ids : list str) (cl cl' : Client) :
  delete_by_ids coll ids cl = Ok cl' ->
  exists col col', cl !! coll = Some col /\ cl' !! coll = Some col' /\
    (forall i, In i ids -> col' !! i = None) /\
    (forall i, ~ In i ids -> col' !! i = col !! i) /\
    (forall n, n <> coll -> cl' !! n = cl !! n).
Proof.
  unfold delete_by_ids. destruct (cl !! coll) as [col|] eqn:Hc; [|discriminate].
  destruct ids as [|j ids]; [discriminate|].
  destruct (bool_decide (NoDup (j :: ids))); [|discriminate]. intros H. injection H as <-.
  exists col, (delete_ids (j :: ids) col). split; [reflexivity|].
  split; [apply lookup_insert_eq|]. split; [|split].
  - intros i Hi. exact (proj1 (delete_ids_lookup _ col i) Hi).
  - intros i Hi. exact (proj2 (delete_ids_lookup _ col i) Hi).
  - intros n Hn. apply lookup_insert_ne. congruence.
Qed.

Lemma delete_by_ids_removes_witness :
  delete_by_ids demo_coll [s2l "a"] {[ demo_coll := {[ s2l "a" := (s2l "x", ∅) ]} ]}
  = Ok {[ demo_coll := ∅ ]} /\
  exists col col', ({[ demo_coll := {[ s2l "a" := (s2l "x", ∅) ]} ]} : Client) !! demo_coll = Some col /\
    ({[ demo_coll := ∅ ]} : Client) !! demo_coll = Some col' /\
    (forall i, In i [s2l "a"] -> col' !! i = None) /\
    (forall i, ~ In i [s2l "a"] -> col' !! i = col !! i) /\
    (forall n, n <> demo_coll -> ({[ demo_coll := ∅ ]} : Client) !! n
               = ({[ demo_coll := {[ s2l "a" := (s2l "x", ∅) ]} ]} : Client) !! n).
Proof.
  assert (H : delete_by_ids demo_coll [s2l "a"] {[ demo_coll := {[ s2l "a" := (s2l "x", ∅) ]} ]}
              = Ok {[ demo_coll := ∅ ]}) by (vm_compute; reflexivity).
  split; [exact H|]. exact (delete_by_ids_removes _ _ _ _ H).
Defined.

(** X20: on an existing collection, a non-empty list of distinct ids is
    accepted, and [count_items] then drops by the number of those ids that
    were stored (main.py deletes one stored id and sees the count fall by
    one). *)
Theorem delete_by_ids_count (coll : str) (ids : list str) (cl : Client) (col : Collection) :
  cl !! coll = Some col -> ids <> [] -> NoDup ids ->
  exists cl', delete_by_ids coll ids cl = Ok cl' /\
    count_items coll cl'
    = Ok (size col - length (List.filter (fun i => bool_decide (is_Some (col !! i))) ids)).
Proof.
  intros Hc Hne Hn. unfold delete_by_ids. rewrite Hc.
  destruct ids as [|j ids]; [congruence|]. rewrite bool_decide_eq_true_2 by exact Hn.
  eexists. split; [reflexivity|]. unfold count_items. rewrite lookup_insert_eq.
  f_equal. pose proof (delete_ids_size (j :: ids) col Hn). lia.
Qed.

Lemma delete_by_ids_count_witness :
  ({[ demo_coll := {[ s2l "a" := (s2l "x", ∅); s2l "b" := (s2l "y", ∅) ]} ]} : Client) !! demo_coll
    = Some {[ s2l "a" := (s2l "x", ∅); s2l "b" := (s2l "y", ∅) ]} /\
  exists cl', delete_by_ids demo_coll [s2l "a"]
                {[ demo_coll := {[ s2l "a" := (s2l "x", ∅); s2l "b" := (s2l "y", ∅) ]} ]} = Ok cl' /\
    count_items demo_coll cl' = Ok 1.
Proof.
  assert (H : ({[ demo_coll := {[ s2l "a" := (s2l "x", ∅); s2l "b" := (s2l "y", ∅) ]} ]} : Client)
                !! demo_coll = Some {[ s2l "a" := (s2l "x", ∅); s2l "b" := (s2l "y", ∅) ]})
    by (vm_compute; reflexivity).
  split; [exact H|].
  destruct (delete_by_ids_count _ [s2l "a"] _ _ H ltac:(discriminate)
              ltac:(repeat constructor; vm_compute; intros H'; inversion H')) as [cl' [E C]].
  exists cl'. split; [exact E|]. rewrite C. vm_compute. reflexivity.
Defined.

(** X21: [delete_by_metadata] with a one-key filter [{k: v}] keeps exactly
    the records of the collection whose metadata does not have [k = v]. *)
Theorem delete_by_metadata_single (coll k : str) (v : Value) (cl : Client) (col : Collection) :
  cl !! coll = Some col -> k <> s2l "$and" -> k <> s2l "$or" ->
  exists cl' col', delete_by_metadata coll {[ k := v ]} cl = Ok cl' /\
    cl' !! coll = Some col' /\
    (forall i d m, col' !! i = Some (d, m) <-> col !! i = Some (d, m) /\ m !! k <> Some v) /\
    (forall n, n <> coll -> cl' !! n = cl !! n).
Proof.
  intros Hc Ha Ho. unfold delete_by_metadata, where_pred. rewrite Hc, map_to_list_singleton.
  rewrite (bool_decide_eq_false_2 _ Ha), (bool_decide_eq_false_2 _ Ho). simpl.
  do 2 eexists. split; [reflexivity|]. split; [apply lookup_insert_eq|]. split.
  - intros i d m. rewrite map_lookup_filter_Some. simpl.
    split; intros [H1 H2]; split; auto.
    + intros E. rewrite (bool_decide_eq_true_2 _ E) in H2. discriminate.
    + apply bool_decide_eq_false_2. exact H2.
  - intros n Hn. apply lookup_insert_ne. congruence.
Qed.

Lemma delete_by_metadata_single_witness :
  exists cl' col',
  delete_by_metadata demo_coll {[ k_author := VStr (s2l "Human") ]}
    {[ demo_coll := {[ s2l "a" := (s2l "x", {[ k_author := VStr (s2l "Human") ]}) ]} ]} = Ok cl' /\
    cl' !! demo_coll = Some col' /\
    (forall i d m, col' !! i = Some (d, m) <->
       ({[ s2l "a" := (s2l "x", {[ k_author := VStr (s2l "Human") ]}) ]} : Collection) !! i
         = Some (d, m) /\ m !! k_author <> Some (VStr (s2l "Human"))) /\
    (forall n, n <> demo_coll -> cl' !! n
       = ({[ demo_coll := {[ s2l "a" := (s2l "x", {[ k_author := VStr (s2l "Human") ]}) ]} ]}
          : Client) !! n).
Proof.
  apply delete_by_metadata_single; [vm_compute; reflexivity|vm_compute; congruence|
                                    vm_compute; congruence].
Defined.
